(** * DataStore: the client-side data-window manager

    A shallow embedding of [client/src/stores/DataStore.ts] and of the
    scroll handler of [client/src/components/DataTable.tsx].

    Conventions of the embedding.
    - JavaScript numbers that the store handles (page numbers, page
      sizes, totals, offsets, scroll geometry) are integers, modelled
      as [Z].  Array lengths are [nat] and are injected with [Z.of_nat]
      where the source compares or subtracts them.
    - Optional fields of antd's [TablePaginationConfig] are [option Z];
      the source's [x || d] is [or_default x d] below.
    - An [async] method is split at its suspension point: [f_begin] is
      the synchronous prefix run by the caller (it issues the request),
      [f_resolve] is the continuation run when the request settles.
      The continuation acts on the store as it is at that time. *)

From stdpp Require Import base list strings pretty sorting.

Local Open Scope string_scope.
Local Open Scope list_scope.
Local Open Scope Z_scope.

(** ** Data model *)

(** [value: any] of a filter condition: the table passes the array of
    selected keys of a column. *)
Inductive JsKey : Type :=
  | KeyBool (b : bool)
  | KeyNum (n : Z)
  | KeyStr (s : string).

Inductive JsValue : Type :=
  | JsNull
  | JsKeys (vs : list JsKey).

Module DataItem.
Record t : Type := mk {
  id : Z;
  name : string;
  version : string;
  created_at : string;
  desc : string;
  country : Z;
  count : Z;
  parent : option Z;
}.
End DataItem.

Module FilterCondition.
Record t : Type := mk {
  column : string;
  operator : string;
  value : JsValue;
}.
End FilterCondition.

Module SortCondition.
Record t : Type := mk {
  column : string;
  direction : string;
  priority : Z;
}.
End SortCondition.

(** The three fields of [TablePaginationConfig] that the store uses. *)
Record TablePaginationConfig : Type := mkPagination {
  current : option Z;
  pageSize : option Z;
  total : option Z;
}.

Record DataStore : Type := mkStore {
  data : list DataItem.t;
  loading : bool;
  error : option string;
  pagination : TablePaginationConfig;
  filters : list FilterCondition.t;
  sorts : list SortCondition.t;
  globalSearch : string;
  maxRecords : Z;
  isFetching : bool;
}.

(** The field initialisers of [class DataStore]. *)
Definition dataStore : DataStore :=
  {| data := [];
     loading := false;
     error := None;
     pagination := {| current := Some 1; pageSize := Some 1000; total := Some 0 |};
     filters := [];
     sorts := [];
     globalSearch := "";
     maxRecords := 3000;
     isFetching := false |}.

(** Field assignments [this.f = v]. *)
Definition set_data (v : list DataItem.t) (s : DataStore) : DataStore :=
  mkStore v (loading s) (error s) (pagination s) (filters s) (sorts s)
          (globalSearch s) (maxRecords s) (isFetching s).
Definition set_loading (v : bool) (s : DataStore) : DataStore :=
  mkStore (data s) v (error s) (pagination s) (filters s) (sorts s)
          (globalSearch s) (maxRecords s) (isFetching s).
Definition set_error (v : option string) (s : DataStore) : DataStore :=
  mkStore (data s) (loading s) v (pagination s) (filters s) (sorts s)
          (globalSearch s) (maxRecords s) (isFetching s).
Definition set_pagination (v : TablePaginationConfig) (s : DataStore) : DataStore :=
  mkStore (data s) (loading s) (error s) v (filters s) (sorts s)
          (globalSearch s) (maxRecords s) (isFetching s).
Definition set_filters (v : list FilterCondition.t) (s : DataStore) : DataStore :=
  mkStore (data s) (loading s) (error s) (pagination s) v (sorts s)
          (globalSearch s) (maxRecords s) (isFetching s).
Definition set_sorts (v : list SortCondition.t) (s : DataStore) : DataStore :=
  mkStore (data s) (loading s) (error s) (pagination s) (filters s) v
          (globalSearch s) (maxRecords s) (isFetching s).
Definition set_globalSearch (v : string) (s : DataStore) : DataStore :=
  mkStore (data s) (loading s) (error s) (pagination s) (filters s) (sorts s)
          v (maxRecords s) (isFetching s).
Definition set_isFetching (v : bool) (s : DataStore) : DataStore :=
  mkStore (data s) (loading s) (error s) (pagination s) (filters s) (sorts s)
          (globalSearch s) (maxRecords s) v.

(** [this.pagination.current = v] and [this.pagination.total = v]. *)
Definition set_current (v : option Z) (s : DataStore) : DataStore :=
  set_pagination
    (mkPagination v (pageSize (pagination s)) (total (pagination s))) s.
Definition set_total (v : option Z) (s : DataStore) : DataStore :=
  set_pagination
    (mkPagination (current (pagination s)) (pageSize (pagination s)) v) s.

(** [x || d] on an optional number: [undefined] and [0] are falsy. *)
Definition or_default (x : option Z) (d : Z) : Z :=
  match x with
  | Some v => if v =? 0 then d else v
  | None => d
  end.

(** [Array.prototype.slice(start)]: a negative [start] counts from the
    end, and both ends are clamped to the array. *)
Definition slice {A : Type} (start : Z) (l : list A) : list A :=
  let len := Z.of_nat (length l) in
  let k := if start <? 0 then Z.max (len + start) 0 else Z.min start len in
  drop (Z.to_nat k) l.

(** ** The dataset service *)

(** The JSON body of a POST to [/data]. *)
Record Request : Type := mkRequest {
  offset : Z;
  limit : option Z;
  req_filters : list FilterCondition.t;
  req_sorts : list SortCondition.t;
  global_search : string;
}.

(** The decoded answer [{data, total}]. *)
Record PageResult : Type := mkResult {
  result_data : list DataItem.t;
  result_total : Z;
}.

(** A thrown value: an [Error] with its message, or anything else. *)
Inductive Thrown : Type :=
  | ErrorObject (message : string)
  | NonError.

(** What [response.json()] and the read of the body give: a page
    result of the service's response type, or an exception (a body
    that is not JSON, or a [null] body whose fields are read). *)
Inductive Body : Type :=
  | JsonValue (r : PageResult)
  | JsonThrows (e : Thrown).

(** How one [fetch] call ends. *)
Inductive FetchOutcome : Type :=
  | FetchRejects (e : Thrown)
  | FetchResponds (ok : bool) (status : Z) (body : Body).

(** The [try] block after the request was sent: either it reaches the
    state update with a result, or control goes to [catch]. *)
Definition settle (o : FetchOutcome) : Thrown + PageResult :=
  match o with
  | FetchRejects e => inl e
  | FetchResponds ok status body =>
      if ok then
        match body with
        | JsonValue r => inr r
        | JsonThrows e => inl e
        end
      else inl (ErrorObject ("HTTP error! status: " +:+ pretty status))
  end.

(** [error instanceof Error ? error.message : "Unknown error"]. *)
Definition error_text (e : Thrown) : string :=
  match e with
  | ErrorObject m => m
  | NonError => "Unknown error"
  end.

(** ** Full-refresh fetch: [fetchData] *)

Definition fetch_offset (p : TablePaginationConfig) : Z :=
  (or_default (current p) 1 - 1) * or_default (pageSize p) 1000.

Definition fetchData_request (s : DataStore) : Request :=
  {| offset := fetch_offset (pagination s);
     limit := pageSize (pagination s);
     req_filters := filters s;
     req_sorts := sorts s;
     global_search := globalSearch s |}.

(** Up to the first [await]: the guard, the three flag writes and the
    call of [fetch].  [None] means that no request was sent. *)
Definition fetchData_begin (s : DataStore) : DataStore * option Request :=
  if isFetching s then (s, None)
  else
    let s1 := set_error None (set_loading true (set_isFetching true s)) in
    (s1, Some (fetchData_request s1)).

(** From the settled request to the end of [finally]. *)
Definition fetchData_resolve (o : FetchOutcome) (s : DataStore) : DataStore :=
  let s1 :=
    match settle o with
    | inr result =>
        set_loading false
          (set_total (Some (result_total result))
             (set_data (result_data result) s))
    | inl e =>
        set_loading false (set_error (Some (error_text e)) s)
    end in
  set_isFetching false s1.

(** A whole call with nothing interleaved. *)
Definition fetchData (o : FetchOutcome) (s : DataStore) : DataStore :=
  match fetchData_begin s with
  | (s1, Some _) => fetchData_resolve o s1
  | (s1, None) => s1
  end.

(** ** Setters *)

Definition setPagination (p : TablePaginationConfig) (s : DataStore)
  : DataStore * option Request :=
  fetchData_begin (set_pagination p s).

(** The handlers that [debounce] wraps. *)
Definition setFilters_handler (f : list FilterCondition.t) (s : DataStore)
  : DataStore * option Request :=
  fetchData_begin (set_current (Some 1) (set_filters f s)).

Definition setSorts_handler (so : list SortCondition.t) (s : DataStore)
  : DataStore * option Request :=
  fetchData_begin (set_sorts so s).

Definition setGlobalSearch_handler (q : string) (s : DataStore)
  : DataStore * option Request :=
  fetchData_begin (set_current (Some 1) (set_globalSearch q s)).

(** ** Scroll-load fetch: [handleScrollLoad] *)

(** Up to the first [await]: the front trim and the call of [fetch]. *)
Definition handleScrollLoad_begin (offset limit : Z) (s : DataStore)
  : DataStore * Request :=
  let s1 :=
    if Z.of_nat (length (data s)) >=? maxRecords s
    then set_data (slice (- maxRecords s + limit) (data s)) s
    else s in
  (s1,
   {| offset := offset;
      limit := Some limit;
      req_filters := filters s1;
      req_sorts := sorts s1;
      global_search := globalSearch s1 |}).

(** The continuation; the second component is what [console.error]
    received. *)
Definition handleScrollLoad_resolve (o : FetchOutcome) (s : DataStore)
  : DataStore * option Thrown :=
  match settle o with
  | inr result =>
      (set_total (Some (result_total result))
         (set_data (data s ++ result_data result) s), None)
  | inl e => (s, Some e)
  end.

(** A whole call with nothing interleaved. *)
Definition handleScrollLoad (offset limit : Z) (o : FetchOutcome) (s : DataStore)
  : DataStore * option Thrown :=
  handleScrollLoad_resolve o (fst (handleScrollLoad_begin offset limit s)).

(** ** The scroll handler of the table component *)

Record ScrollGeometry : Type := mkScroll {
  scrollTop : Z;
  scrollHeight : Z;
  clientHeight : Z;
}.

Definition handleScroll (e : ScrollGeometry) (s : DataStore)
  : DataStore * option Request :=
  if (scrollHeight e - (scrollTop e + clientHeight e) <? 100)
     && negb (loading s)
     && (Z.of_nat (length (data s)) <? or_default (total (pagination s)) 0)
  then
    let nextOffset := Z.of_nat (length (data s)) in
    let '(s1, r) :=
      handleScrollLoad_begin nextOffset (or_default (pageSize (pagination s)) 1000) s in
    (s1, Some r)
  else (s, None).

(** ** The store together with its requests in flight

    The store is driven by events: calls from the view, debounced
    handlers firing, scroll events, and requests settling.  The system
    state keeps, next to the store, the requests that were sent and
    have not settled yet, one list per kind, and what was written to
    the console.  Nothing in the model bounds the length of either
    list. *)

Record System : Type := mkSystem {
  store : DataStore;
  refreshes : list Request;
  scrollLoads : list Request;
  console : list Thrown;
}.

Definition initial : System := mkSystem dataStore [] [] [].

Inductive Event : Type :=
  | CallFetchData
  | CallSetPagination (p : TablePaginationConfig)
  | FireSetFilters (f : list FilterCondition.t)
  | FireSetSorts (so : list SortCondition.t)
  | FireSetGlobalSearch (q : string)
  | Scroll (e : ScrollGeometry)
  | RefreshSettles (k : nat) (o : FetchOutcome)
  | ScrollLoadSettles (k : nat) (o : FetchOutcome).

(** The system with another store and the same requests in flight. *)
Definition with_store (s : DataStore) (sy : System) : System :=
  mkSystem s (refreshes sy) (scrollLoads sy) (console sy).

(** A store method that may call [fetchData] ran. *)
Definition after_refresh_call (sy : System) (r : DataStore * option Request)
  : System :=
  mkSystem (fst r) (refreshes sy ++ option_list (snd r))
           (scrollLoads sy) (console sy).

(** [None]: the event cannot happen in this state (no such request is
    in flight). *)
Definition step (sy : System) (ev : Event) : option System :=
  match ev with
  | CallFetchData =>
      Some (after_refresh_call sy (fetchData_begin (store sy)))
  | CallSetPagination p =>
      Some (after_refresh_call sy (setPagination p (store sy)))
  | FireSetFilters f =>
      Some (after_refresh_call sy (setFilters_handler f (store sy)))
  | FireSetSorts so =>
      Some (after_refresh_call sy (setSorts_handler so (store sy)))
  | FireSetGlobalSearch q =>
      Some (after_refresh_call sy (setGlobalSearch_handler q (store sy)))
  | Scroll e =>
      let r := handleScroll e (store sy) in
      Some (mkSystem (fst r) (refreshes sy)
                     (scrollLoads sy ++ option_list (snd r)) (console sy))
  | RefreshSettles k o =>
      match refreshes sy !! k with
      | Some _ =>
          Some (mkSystem (fetchData_resolve o (store sy))
                         (delete k (refreshes sy))
                         (scrollLoads sy) (console sy))
      | None => None
      end
  | ScrollLoadSettles k o =>
      match scrollLoads sy !! k with
      | Some _ =>
          let r := handleScrollLoad_resolve o (store sy) in
          Some (mkSystem (fst r) (refreshes sy)
                         (delete k (scrollLoads sy))
                         (console sy ++ option_list (snd r)))
      | None => None
      end
  end.

Fixpoint run (evs : list Event) (sy : System) : option System :=
  match evs with
  | [] => Some sy
  | ev :: evs' =>
      match step sy ev with
      | Some sy' => run evs' sy'
      | None => None
      end
  end.

Inductive reachable : System → Prop :=
  | reachable_initial : reachable initial
  | reachable_step sy ev sy' :
      reachable sy → step sy ev = Some sy' → reachable sy'.

(** The busy flags agree with each other and with the number of
    full-refresh requests in flight. *)
Definition coherent (sy : System) : Prop :=
  loading (store sy) = isFetching (store sy) ∧
  length (refreshes sy) = if isFetching (store sy) then 1%nat else 0%nat.

(** ** Debounce

    [utils/debounce.ts], which the store imports for its three
    debounced setters, is not among the sources; the definitions of
    this section follow the description that the spec gives of it.
    Time is a virtual clock in milliseconds. *)
Section Debounce.
Context {A S : Type}.
Variable handler : A → S → S.
Variable wait : Z.

(** Modelled from the spec: the state of one wrapped function of the
    missing [utils/debounce.ts].  [target] is the state the handler
    acts on, [timer] the due time and the arguments of the pending
    call, [invocations] the arguments of the handler runs so far,
    oldest first. *)
Record Debounced : Type := mkDebounced {
  target : S;
  timer : option (Z * A);
  invocations : list A;
}.

(** Modelled from the spec: the timer of the missing [debounce] fires.
    When the clock reaches [now], a pending call that is due runs the
    handler with its arguments ("schedules the handler to run after
    the quiet period"). *)
Definition elapse (now : Z) (d : Debounced) : Debounced :=
  match timer d with
  | Some (due, a) =>
      if due <=? now
      then mkDebounced (handler a (target d)) None (invocations d ++ [a])
      else d
  | None => d
  end.

(** Modelled from the spec: a call, at [now] with [a], of the function
    that the missing [debounce] returns.  A timer that was due has
    fired; one that is still pending is cancelled and replaced ("if
    another invocation arrives before the timer fires, the pending
    timer is canceled and replaced"). *)
Definition invoke (now : Z) (a : A) (d : Debounced) : Debounced :=
  let d1 := elapse now d in
  mkDebounced (target d1) (Some (now + wait, a)) (invocations d1).

(** A sequence of calls, oldest first. *)
Fixpoint invoke_all (calls : list (Z * A)) (d : Debounced) : Debounced :=
  match calls with
  | [] => d
  | (now, a) :: calls' => invoke_all calls' (invoke now a d)
  end.

(** The calls that follow a call at [t] come in order, each less
    than the quiet period after the one before. *)
Fixpoint burst (t : Z) (calls : list (Z * A)) : Prop :=
  match calls with
  | [] => True
  | (t', _) :: calls' => t ≤ t' < t + wait ∧ burst t' calls'
  end.
End Debounce.

Arguments Debounced : clear implicits.
Arguments mkDebounced {A S} _ _ _.

(** The three debounced channels of the store, with the quiet periods
    and the handlers given to [debounce] in the source. *)
Inductive Channel : Type := Filters | Sorts | Search.

Definition quiet_period (ch : Channel) : Z :=
  match ch with
  | Filters => 300
  | Sorts => 300
  | Search => 500
  end.

Definition Args (ch : Channel) : Type :=
  match ch with
  | Filters => list FilterCondition.t
  | Sorts => list SortCondition.t
  | Search => string
  end.

Definition fire (ch : Channel) : Args ch → System → System :=
  match ch with
  | Filters => λ f sy, after_refresh_call sy (setFilters_handler f (store sy))
  | Sorts => λ so sy, after_refresh_call sy (setSorts_handler so (store sy))
  | Search => λ q sy, after_refresh_call sy (setGlobalSearch_handler q (store sy))
  end.

(** ** The change handler of the table component

    [handleTableChange] of [DataTable.tsx] receives, from antd's table,
    the pagination descriptor, the selected filter keys per column and
    the sorter state. *)

(** antd's [SortOrder] without [null]. *)
Inductive SortOrder : Type := ascend | descend.

(** The two fields of antd's [SorterResult] that the handler reads.
    [field] is the one the handler casts to a string. *)
Record SorterResult : Type := mkSorter {
  field : option string;
  order : option SortOrder;
}.

(** The [sorter] argument: one result, or an array of them. *)
Inductive Sorter : Type :=
  | OneSorter (sort : SorterResult)
  | ManySorters (sorts : list SorterResult).

(** [order === "ascend" ? "asc" : "desc"]. *)
Definition direction_of (o : SortOrder) : string :=
  match o with
  | ascend => "asc"
  | descend => "desc"
  end.

(** [sort.field && sort.order]: [undefined], [null] and the empty
    string are falsy.  The result is what the handler pushes at
    priority [priority], if anything. *)
Definition sort_condition (priority : Z) (sort : SorterResult)
  : option SortCondition.t :=
  match field sort, order sort with
  | Some f, Some o =>
      if String.eqb f "" then None
      else Some (SortCondition.mk f (direction_of o) priority)
  | _, _ => None
  end.

(** [array.push(x)] when there is an [x]. *)
Definition push {A : Type} (l : list A) (x : option A) : list A :=
  l ++ option_list x.

(** [sorter.forEach((sort, index) => ...)], from [index] on, pushing to
    [newSorts]. *)
Fixpoint forEach_sorter (index : nat) (sorter : list SorterResult)
    (newSorts : list SortCondition.t) : list SortCondition.t :=
  match sorter with
  | [] => newSorts
  | sort :: rest =>
      forEach_sorter (S index) rest
        (push newSorts (sort_condition (Z.of_nat index + 1) sort))
  end.

Definition newSorts (sorter : Sorter) : list SortCondition.t :=
  match sorter with
  | ManySorters sorts => forEach_sorter 0 sorts []
  | OneSorter sort => push [] (sort_condition 1 sort)
  end.

(** [for (const [column, value] of Object.entries(filters))], pushing to
    [newFilters].  A value is [null] or an array of keys; an array,
    empty or not, is truthy. *)
Fixpoint forOf_filters (entries : list (string * option (list JsKey)))
    (newFilters : list FilterCondition.t) : list FilterCondition.t :=
  match entries with
  | [] => newFilters
  | (column, value) :: rest =>
      forOf_filters rest
        (push newFilters
           (match value with
            | Some keys => Some (FilterCondition.mk column "in" (JsKeys keys))
            | None => None
            end))
  end.

Definition newFilters (entries : list (string * option (list JsKey)))
  : list FilterCondition.t :=
  forOf_filters entries [].

(** The handler.  It calls [setPagination] right away when the page
    number differs from the one of the store, and then calls the
    debounced [setSorts] and [setFilters], in this order: the result
    holds the system after the direct call, and the arguments of the
    two debounced calls. *)
Definition handleTableChange (p : TablePaginationConfig)
    (entries : list (string * option (list JsKey))) (sorter : Sorter)
    (sy : System)
  : System * (list SortCondition.t * list FilterCondition.t) :=
  let sy1 :=
    if bool_decide (current p ≠ current (pagination (store sy)))
    then after_refresh_call sy (setPagination p (store sy))
    else sy in
  (sy1, (newSorts sorter, newFilters entries)).

(** ** Sample data *)

Definition item (i : Z) : DataItem.t := DataItem.mk i "" "" "" "" 0 0 None.

Definition items (from : Z) (n : nat) : list DataItem.t :=
  (λ k, item (from + Z.of_nat k)) <$> seq 0 n.

Definition page (from : Z) (n : nat) (tot : Z) : FetchOutcome :=
  FetchResponds true 200 (JsonValue (mkResult (items from n) tot)).

(** The initial store holding [n] records. *)
Definition holding (n : nat) : DataStore := set_data (items 0 n) dataStore.

(** The last [k] elements of a list (the whole list when it is
    shorter). *)
Definition lastn {A : Type} (k : nat) (l : list A) : list A :=
  drop (length l - k) l.

(** * Properties *)

(** ** Arrays *)

Section Slice.
Context {A : Type}.
Implicit Types l : list A.

Lemma slice_negative start l :
  start < 0 → slice start l = lastn (Z.to_nat (- start)) l.
Proof.
  intros Hneg. unfold slice, lastn.
  destruct (Z.ltb_spec start 0) as [_ | ?]; [| lia].
  f_equal. lia.
Qed.

Lemma slice_suffix start l : slice start l `suffix_of` l.
Proof. apply suffix_drop. Qed.

Lemma length_lastn k l : length (lastn k l) = (k `min` length l)%nat.
Proof. unfold lastn. rewrite length_drop. lia. Qed.
End Slice.

(** ** Scroll-load: what a call does to the store *)

Lemma handleScrollLoad_begin_below offset limit s :
  Z.of_nat (length (data s)) < maxRecords s →
  fst (handleScrollLoad_begin offset limit s) = s.
Proof.
  intros Hlt. unfold handleScrollLoad_begin.
  destruct (Z.geb_spec (Z.of_nat (length (data s))) (maxRecords s)); [lia | done].
Qed.

Lemma handleScrollLoad_begin_full offset limit s :
  maxRecords s ≤ Z.of_nat (length (data s)) →
  fst (handleScrollLoad_begin offset limit s)
  = set_data (slice (- maxRecords s + limit) (data s)) s.
Proof.
  intros Hge. unfold handleScrollLoad_begin.
  destruct (Z.geb_spec (Z.of_nat (length (data s))) (maxRecords s)); [done | lia].
Qed.

Lemma handleScrollLoad_begin_fields offset limit s :
  let s1 := fst (handleScrollLoad_begin offset limit s) in
  error s1 = error s ∧ loading s1 = loading s ∧ isFetching s1 = isFetching s
  ∧ pagination s1 = pagination s ∧ maxRecords s1 = maxRecords s
  ∧ data s1 `suffix_of` data s.
Proof.
  unfold handleScrollLoad_begin.
  destruct (_ >=? _); simpl; repeat split; auto using slice_suffix.
Qed.

Lemma handleScrollLoad_success offset limit o r s :
  settle o = inr r →
  data (fst (handleScrollLoad offset limit o s))
  = data (fst (handleScrollLoad_begin offset limit s)) ++ result_data r.
Proof.
  intros Hok. unfold handleScrollLoad, handleScrollLoad_resolve.
  by rewrite Hok.
Qed.

Lemma handleScrollLoad_failure offset limit o e s :
  settle o = inl e →
  handleScrollLoad offset limit o s
  = (fst (handleScrollLoad_begin offset limit s), Some e).
Proof.
  intros Hko. unfold handleScrollLoad, handleScrollLoad_resolve.
  by rewrite Hko.
Qed.

(** C2, as stated, fails: a store that holds 2500 records is below the
    capacity of 3000, so nothing is trimmed, and a page of 1000 records
    brings it to 3500. *)
Lemma scroll_append_exceeds_capacity :
  ¬ (Z.of_nat (length (data (fst
        (handleScrollLoad 2500 1000 (page 2500 1000 9000) (holding 2500)))))
     ≤ maxRecords (holding 2500)).
Proof.
  assert (length (data (fst
            (handleScrollLoad 2500 1000 (page 2500 1000 9000) (holding 2500))))
          = 3500%nat) as -> by (vm_compute; reflexivity).
  simpl. lia.
Qed.

(** C2 (amended).  A successful scroll-load append leaves at most
    [maxRecords] records in the store whenever the records that the
    response finds in the store and the records that it brings do not
    together exceed [maxRecords]; this holds whatever happened between
    the call and the response.  For a call with nothing else happening
    between the call and its response, the bound also holds when the
    store held at least [maxRecords] records when the call was made,
    the limit is below [maxRecords] and the response has at most
    [limit] records (the trim at the call then makes room). *)
Theorem scroll_append_within_capacity offset limit o r s :
  settle o = inr r →
  (Z.of_nat (length (data s)) + Z.of_nat (length (result_data r))
   ≤ maxRecords s →
   Z.of_nat (length (data (fst (handleScrollLoad_resolve o s))))
   ≤ maxRecords s)
  ∧ ((maxRecords s ≤ Z.of_nat (length (data s))
      ∧ limit < maxRecords s
      ∧ Z.of_nat (length (result_data r)) ≤ limit)
     ∨ Z.of_nat (length (data s)) + Z.of_nat (length (result_data r))
       ≤ maxRecords s →
     Z.of_nat (length (data (fst (handleScrollLoad offset limit o s))))
     ≤ maxRecords s).
Proof.
  intros Hok. split.
  - intros Hfit. unfold handleScrollLoad_resolve. rewrite Hok. simpl.
    rewrite length_app. lia.
  - intros Hroom.
    rewrite (handleScrollLoad_success _ _ _ _ _ Hok), length_app.
    destruct Hroom as [(Hge & Hlim & Hpage) | Hfit].
    + rewrite handleScrollLoad_begin_full by done. simpl.
      rewrite slice_negative, length_lastn by lia. lia.
    + destruct (handleScrollLoad_begin_fields offset limit s)
        as (_ & _ & _ & _ & _ & Hsuffix).
      apply suffix_length in Hsuffix. lia.
Qed.

Lemma scroll_append_within_capacity_witness :
  Z.of_nat (length (data (fst
     (handleScrollLoad 3000 1000 (page 3000 1000 5000) (holding 3000)))))
  ≤ maxRecords (holding 3000)
  ∧ Z.of_nat (length (data (fst
       (handleScrollLoad_resolve (page 2000 1000 5000) (holding 2000)))))
    ≤ maxRecords (holding 2000).
Proof.
  split.
  - apply (proj2 (scroll_append_within_capacity 3000 1000
                    (page 3000 1000 5000)
                    (mkResult (items 3000 1000) 5000) (holding 3000) eq_refl)).
    left. split; [| split].
    + vm_compute. discriminate.
    + reflexivity.
    + vm_compute. discriminate.
  - apply (proj1 (scroll_append_within_capacity 2000 1000
                    (page 2000 1000 5000)
                    (mkResult (items 2000 1000) 5000) (holding 2000) eq_refl)).
    vm_compute. discriminate.
Defined.

(** C3, as stated, fails: at capacity the front of the cache is trimmed
    before the request is sent, so a request that fails leaves 2000 of
    the 3000 records. *)
Lemma scroll_failure_trims :
  data (fst (handleScrollLoad 3000 1000
               (FetchRejects (ErrorObject "Failed to fetch")) (holding 3000)))
  ≠ data (holding 3000).
Proof.
  intros Heq. apply (f_equal length) in Heq.
  vm_compute in Heq. discriminate.
Qed.

(** C3 (amended).  A scroll-load whose request fails appends nothing:
    the records afterwards are a suffix of the records before, and the
    store is exactly as it was when it held fewer than [maxRecords]
    records.  The error field, the busy flag and the pagination are as
    they were; the failure only goes to the console. *)
Theorem scroll_failure_silent offset limit o e s :
  settle o = inl e →
  let s' := fst (handleScrollLoad offset limit o s) in
  error s' = error s
  ∧ loading s' = loading s
  ∧ pagination s' = pagination s
  ∧ snd (handleScrollLoad offset limit o s) = Some e
  ∧ data s' `suffix_of` data s
  ∧ (Z.of_nat (length (data s)) < maxRecords s → s' = s).
Proof.
  intros Hko s'. subst s'.
  rewrite (handleScrollLoad_failure _ _ _ _ _ Hko). cbn [fst snd].
  destruct (handleScrollLoad_begin_fields offset limit s)
    as (He & Hl & _ & Hp & _ & Hsuffix).
  repeat split; auto.
  apply handleScrollLoad_begin_below.
Qed.

Lemma scroll_failure_silent_witness :
  let s := holding 2000 in
  let r := handleScrollLoad 2000 1000 (FetchResponds false 503 (JsonThrows NonError)) s in
  error (fst r) = None
  ∧ snd r = Some (ErrorObject "HTTP error! status: 503")
  ∧ fst r = s.
Proof.
  intros s r.
  destruct (scroll_failure_silent 2000 1000
              (FetchResponds false 503 (JsonThrows NonError))
              (ErrorObject "HTTP error! status: 503") s eq_refl)
    as (He & _ & _ & Hc & _ & Hsame).
  split; [exact He |]. split; [exact Hc |].
  apply Hsame. vm_compute. reflexivity.
Defined.

(** C4, as stated, fails when the limit is not below the capacity: with
    3000 records, capacity 3000 and limit 4000 the claim keeps
    [max (3000 - 4000) 0 = 0] old records, while [slice(1000)] keeps the
    last 2000. *)
Lemma scroll_trim_not_clamped :
  data (fst (handleScrollLoad 3000 4000 (page 3000 4000 9000) (holding 3000)))
  ≠ lastn (Z.to_nat (Z.max (maxRecords (holding 3000) - 4000) 0))
          (data (holding 3000))
    ++ items 3000 4000.
Proof.
  intros Heq. apply (f_equal length) in Heq.
  vm_compute in Heq. discriminate.
Qed.

(** C4, as stated, fails also with the limit below the capacity, because
    the trim is decided when the call is made and not when the response
    is appended.  From the initial store, two pages are loaded and two
    scroll events then fire in a row on 2000 records.  The second
    response finds 3000 records, with capacity 3000 and limit 1000, and
    is appended to all of them: 4000 records, where the claim keeps
    the last 2000 and ends with 3000. *)
Lemma scroll_append_at_capacity_without_trim :
  let near := mkScroll 950 1500 500 in
  ∃ sy sy',
    run [CallFetchData; RefreshSettles 0 (page 0 1000 5000);
         Scroll near; ScrollLoadSettles 0 (page 1000 1000 5000);
         Scroll near; Scroll near;
         ScrollLoadSettles 0 (page 2000 1000 5000)] initial = Some sy
    ∧ length (data (store sy)) = 3000%nat
    ∧ limit <$> scrollLoads sy = [Some 1000]
    ∧ step sy (ScrollLoadSettles 0 (page 2000 1000 5000)) = Some sy'
    ∧ data (store sy') = data (store sy) ++ items 2000 1000
    ∧ data (store sy')
      ≠ lastn (Z.to_nat (Z.max (maxRecords (store sy) - 1000) 0))
              (data (store sy))
        ++ items 2000 1000.
Proof.
  intros near. eexists. eexists.
  split; [vm_compute; reflexivity |].
  split; [vm_compute; reflexivity |].
  split; [vm_compute; reflexivity |].
  split; [vm_compute; reflexivity |].
  split; [vm_compute; reflexivity |].
  intros Heq. apply (f_equal length) in Heq.
  vm_compute in Heq. discriminate.
Qed.

(** C4 (amended).  The trim belongs to the call and the append to the
    response.  A scroll-load call made on a store that holds at least
    [maxRecords] records, with a limit below [maxRecords], at once
    keeps only the last [maxRecords - limit] records; a successful
    response is appended after whatever records the store holds when
    it arrives.  So for a call with nothing else happening between the
    call and its response, the store ends with its last
    [maxRecords - limit] records followed by the response.  With
    capacity 3000, limit 1000, 3000 records held at the call and 1000
    received, such a call ends with 3000 records: the last 2000 old
    ones, then the 1000 new ones. *)
Theorem scroll_append_sliding_window offset limit o r s :
  settle o = inr r →
  maxRecords s ≤ Z.of_nat (length (data s)) →
  limit < maxRecords s →
  let s' := fst (handleScrollLoad offset limit o s) in
  data (fst (handleScrollLoad_begin offset limit s))
  = lastn (Z.to_nat (maxRecords s - limit)) (data s)
  ∧ (∀ s1, data (fst (handleScrollLoad_resolve o s1))
           = data s1 ++ result_data r)
  ∧ data s' = lastn (Z.to_nat (maxRecords s - limit)) (data s) ++ result_data r
  ∧ (maxRecords s = 3000 → limit = 1000 →
     length (data s) = 3000%nat → length (result_data r) = 1000%nat →
     length (data s') = 3000%nat
     ∧ data s' = lastn 2000 (data s) ++ result_data r
     ∧ data s' = drop 1000 (data s) ++ result_data r).
Proof.
  intros Hok Hge Hlim s'.
  assert (data (fst (handleScrollLoad_begin offset limit s))
          = lastn (Z.to_nat (maxRecords s - limit)) (data s)) as Hcall.
  { rewrite handleScrollLoad_begin_full by done. simpl.
    rewrite slice_negative by lia. f_equal. lia. }
  assert (∀ s1, data (fst (handleScrollLoad_resolve o s1))
                = data s1 ++ result_data r) as Hresponse.
  { intros s1. unfold handleScrollLoad_resolve. by rewrite Hok. }
  assert (data s' = lastn (Z.to_nat (maxRecords s - limit)) (data s)
                    ++ result_data r) as Hdata.
  { subst s'. unfold handleScrollLoad. by rewrite Hresponse, Hcall. }
  split; [exact Hcall |]. split; [exact Hresponse |].
  split; [exact Hdata |].
  intros Hc Hl Hn Hr. rewrite Hdata, Hc, Hl.
  change (Z.to_nat (3000 - 1000)) with 2000%nat.
  rewrite length_app, length_lastn, Hn, Hr.
  split; [reflexivity |]. split; [reflexivity |].
  unfold lastn. by rewrite Hn.
Qed.

Lemma scroll_append_sliding_window_witness :
  data (fst (handleScrollLoad 3000 1000 (page 3000 1000 5000) (holding 3000)))
  = items 1000 2000 ++ items 3000 1000.
Proof.
  destruct (scroll_append_sliding_window 3000 1000 (page 3000 1000 5000)
              (mkResult (items 3000 1000) 5000) (holding 3000) eq_refl)
    as (_ & _ & _ & Hexample).
  - vm_compute. discriminate.
  - reflexivity.
  - destruct Hexample as (_ & _ & ->); [reflexivity .. |].
    vm_compute. reflexivity.
Defined.

(** ** Full refresh: what a call does to the store *)

Lemma fetchData_begin_idle s :
  isFetching s = false →
  fetchData_begin s
  = (set_error None (set_loading true (set_isFetching true s)),
     Some (fetchData_request s)).
Proof. intros Hidle. unfold fetchData_begin. by rewrite Hidle. Qed.

Lemma fetchData_begin_busy s :
  isFetching s = true → fetchData_begin s = (s, None).
Proof. intros Hbusy. unfold fetchData_begin. by rewrite Hbusy. Qed.

Lemma fetchData_resolve_flags o s :
  loading (fetchData_resolve o s) = false
  ∧ isFetching (fetchData_resolve o s) = false.
Proof. unfold fetchData_resolve. by destruct (settle o). Qed.

(** C9.  When a full-refresh request succeeds, the records of the store
    are the records of the response, whatever their number and
    whatever [maxRecords] is, and the total is the total of the
    response. *)
Theorem refresh_success_replaces o r s :
  settle o = inr r →
  data (fetchData_resolve o s) = result_data r
  ∧ total (pagination (fetchData_resolve o s)) = Some (result_total r)
  ∧ maxRecords (fetchData_resolve o s) = maxRecords s.
Proof.
  intros Hok. unfold fetchData_resolve. by rewrite Hok.
Qed.

Lemma refresh_success_replaces_witness :
  let s' := fetchData_resolve (page 0 3001 9000) (holding 10) in
  length (data s') = 3001%nat
  ∧ data s' = items 0 3001
  ∧ total (pagination s') = Some 9000
  ∧ maxRecords s' = 3000.
Proof.
  intros s'.
  destruct (refresh_success_replaces (page 0 3001 9000)
              (mkResult (items 0 3001) 9000) (holding 10) eq_refl)
    as (Hd & Ht & Hm).
  split; [| split; [exact Hd | split; [exact Ht | exact Hm]]].
  subst s'. rewrite Hd. vm_compute. reflexivity.
Defined.

(** C10.  The request that a full refresh sends carries the offset
    [(current - 1) * pageSize] of the pagination descriptor, with 1 for
    a missing or zero [current] and 1000 for a missing or zero
    [pageSize]; the first page, and so the initial store, gives 0. *)
Theorem refresh_request_offset s :
  isFetching s = false →
  ∃ r, snd (fetchData_begin s) = Some r
    ∧ (∀ c p, current (pagination s) = Some c → c ≠ 0 →
              pageSize (pagination s) = Some p → p ≠ 0 →
              offset r = (c - 1) * p)
    ∧ (∀ c, current (pagination s) = Some c → c ≠ 0 →
            pageSize (pagination s) = None ∨ pageSize (pagination s) = Some 0 →
            offset r = (c - 1) * 1000)
    ∧ (current (pagination s) = None ∨ current (pagination s) = Some 0 →
       offset r = 0)
    ∧ (current (pagination s) = Some 1 → offset r = 0)
    ∧ (s = dataStore → offset r = 0).
Proof.
  intros Hidle. exists (fetchData_request s).
  rewrite fetchData_begin_idle by done.
  split; [reflexivity |].
  unfold fetchData_request, fetch_offset, or_default. simpl.
  repeat split.
  - intros c p -> Hc -> Hp.
    destruct (Z.eqb_spec c 0), (Z.eqb_spec p 0); congruence.
  - intros c -> Hc [-> | ->]; destruct (Z.eqb_spec c 0); simpl; congruence.
  - intros [-> | ->]; simpl; lia.
  - intros ->. simpl. lia.
  - intros ->. reflexivity.
Qed.

Lemma refresh_request_offset_witness :
  ∃ r, snd (fetchData_begin
              (set_pagination (mkPagination (Some 3) (Some 1000) (Some 5000))
                              dataStore)) = Some r
       ∧ offset r = 2000.
Proof.
  destruct (refresh_request_offset
              (set_pagination (mkPagination (Some 3) (Some 1000) (Some 5000))
                              dataStore) eq_refl)
    as (r & Hr & Hpage & _).
  exists r. split; [exact Hr |].
  apply (Hpage 3 1000); [reflexivity | discriminate | reflexivity | discriminate].
Defined.

(** ** The busy flags and the requests in flight *)

Lemma handleScrollLoad_resolve_flags o s :
  let s' := fst (handleScrollLoad_resolve o s) in
  loading s' = loading s ∧ isFetching s' = isFetching s ∧ error s' = error s.
Proof. unfold handleScrollLoad_resolve. by destruct (settle o). Qed.

Lemma handleScroll_flags e s :
  let s' := fst (handleScroll e s) in
  loading s' = loading s ∧ isFetching s' = isFetching s.
Proof.
  unfold handleScroll.
  destruct (_ && _); [| done].
  destruct (handleScrollLoad_begin_fields
              (Z.of_nat (length (data s)))
              (or_default (pageSize (pagination s)) 1000) s)
    as (_ & Hl & Hf & _).
  destruct (handleScrollLoad_begin _ _ s). simpl in *. auto.
Qed.

Lemma coherent_initial : coherent initial.
Proof. by split. Qed.

(** A method that assigns some fields other than the flags and then
    calls [fetchData]. *)
Lemma coherent_refresh_call sy s :
  loading s = loading (store sy) →
  isFetching s = isFetching (store sy) →
  coherent sy →
  coherent (after_refresh_call sy (fetchData_begin s)).
Proof.
  intros Hl Hf [Hsame Hlen]. unfold coherent, after_refresh_call, fetchData_begin.
  destruct (isFetching s) eqn:Hs; simpl.
  - rewrite Hs, Hl, app_nil_r. by rewrite <- Hf in *.
  - split; [done |]. rewrite length_app. rewrite <- Hf in Hlen.
    simpl. lia.
Qed.

Lemma coherent_step sy ev sy' :
  coherent sy → step sy ev = Some sy' → coherent sy'.
Proof.
  intros Hco Hstep. destruct ev; simpl in Hstep.
  - injection Hstep as <-. by apply coherent_refresh_call.
  - injection Hstep as <-. by apply coherent_refresh_call.
  - injection Hstep as <-. by apply coherent_refresh_call.
  - injection Hstep as <-. by apply coherent_refresh_call.
  - injection Hstep as <-. by apply coherent_refresh_call.
  - injection Hstep as <-. destruct Hco as [Hsame Hlen].
    destruct (handleScroll_flags e (store sy)) as [Hl Hf].
    unfold coherent. cbn [store refreshes]. rewrite Hl, Hf. done.
  - destruct (refreshes sy !! k) eqn:Hk; [| discriminate].
    injection Hstep as <-. destruct Hco as [Hsame Hlen].
    destruct (fetchData_resolve_flags o (store sy)) as [Hl Hf].
    unfold coherent. cbn [store refreshes]. rewrite Hl, Hf. split; [done |].
    rewrite length_delete by eauto.
    apply lookup_lt_Some in Hk.
    destruct (isFetching (store sy)); lia.
  - destruct (scrollLoads sy !! k) eqn:Hk; [| discriminate].
    injection Hstep as <-. destruct Hco as [Hsame Hlen].
    destruct (handleScrollLoad_resolve_flags o (store sy)) as (Hl & Hf & _).
    unfold coherent. cbn [store refreshes]. rewrite Hl, Hf. done.
Qed.

Lemma reachable_coherent sy : reachable sy → coherent sy.
Proof.
  induction 1 as [| sy ev sy' _ IH Hstep].
  - apply coherent_initial.
  - by apply (coherent_step sy ev).
Qed.

Lemma reachable_run evs sy sy' :
  reachable sy → run evs sy = Some sy' → reachable sy'.
Proof.
  revert sy. induction evs as [| ev evs IH]; intros sy Hre Hrun; simpl in Hrun.
  - by injection Hrun as <-.
  - destruct (step sy ev) eqn:Hstep; [| discriminate].
    eapply IH; [| exact Hrun]. by eapply reachable_step.
Qed.

(** C5.  In every state the store can reach, at most one full-refresh
    request is in flight, and while one is, a call of [fetchData] is
    dropped: it sends no request and changes nothing. *)
Theorem refresh_mutual_exclusion sy :
  reachable sy →
  (length (refreshes sy) ≤ 1)%nat
  ∧ (refreshes sy ≠ [] →
     fetchData_begin (store sy) = (store sy, None)
     ∧ step sy CallFetchData = Some sy).
Proof.
  intros Hre. destruct (reachable_coherent sy Hre) as [Hsame Hlen].
  split.
  - destruct (isFetching (store sy)); lia.
  - intros Hflight.
    assert (isFetching (store sy) = true) as Hbusy.
    { destruct (isFetching (store sy)); [done |].
      by destruct (refreshes sy). }
    simpl. rewrite (fetchData_begin_busy _ Hbusy).
    split; [done |]. unfold after_refresh_call. simpl.
    rewrite app_nil_r. by destruct sy.
Qed.

Lemma refresh_mutual_exclusion_witness :
  ∃ sy, run [CallFetchData] initial = Some sy
      ∧ length (refreshes sy) = 1%nat
      ∧ run [CallFetchData; CallFetchData] initial = Some sy.
Proof.
  eexists. split; [reflexivity |]. split; [reflexivity |].
  set (sy := after_refresh_call initial (fetchData_begin (store initial))).
  assert (reachable sy) as Hre
    by (apply (reachable_step initial CallFetchData); [constructor | reflexivity]).
  destruct (refresh_mutual_exclusion sy Hre) as [_ Hdrop].
  change (run [CallFetchData; CallFetchData] initial) with (step sy CallFetchData).
  apply Hdrop. discriminate.
Defined.

(** C6.  However a full-refresh request ends, the continuation leaves
    both busy flags cleared; when it ends in a failure (the request
    rejects, the status is not a success, or reading the body throws)
    the error field holds the message and the records are untouched.
    A store that shows [loading] always has its one request in flight,
    and that request settling, in whatever way, ends the loading
    state. *)
Theorem refresh_releases_busy o :
  (∀ s, let s' := fetchData_resolve o s in
        loading s' = false ∧ isFetching s' = false
        ∧ (∀ e, settle o = inl e →
                error s' = Some (error_text e) ∧ data s' = data s))
  ∧ (∀ s, isFetching s = false →
          loading (fetchData o s) = false ∧ isFetching (fetchData o s) = false)
  ∧ (∀ sy, reachable sy → loading (store sy) = true →
           ∃ r sy', refreshes sy = [r]
                  ∧ step sy (RefreshSettles 0 o) = Some sy'
                  ∧ loading (store sy') = false
                  ∧ refreshes sy' = []).
Proof.
  split; [| split].
  - intros s s'. subst s'.
    destruct (fetchData_resolve_flags o s) as [Hl Hf].
    split; [exact Hl |]. split; [exact Hf |].
    intros e Hko. unfold fetchData_resolve. by rewrite Hko.
  - intros s Hidle. unfold fetchData.
    rewrite fetchData_begin_idle by done.
    apply fetchData_resolve_flags.
  - intros sy Hre Hload.
    destruct (reachable_coherent sy Hre) as [Hsame Hlen].
    rewrite <- Hsame, Hload in Hlen.
    destruct (refreshes sy) as [| r [| ? ?]] eqn:Hrs; try discriminate.
    exists r. eexists. split; [reflexivity |].
    simpl. rewrite Hrs. simpl. split; [reflexivity |].
    split; [apply fetchData_resolve_flags | reflexivity].
Qed.

Lemma refresh_releases_busy_witness :
  let s := fetchData_resolve (FetchRejects (ErrorObject "Failed to fetch"))
             (fst (fetchData_begin (holding 5))) in
  loading s = false ∧ isFetching s = false
  ∧ error s = Some "Failed to fetch" ∧ data s = items 0 5.
Proof.
  intros s.
  destruct (refresh_releases_busy (FetchRejects (ErrorObject "Failed to fetch")))
    as [Hstore _].
  destruct (Hstore (fst (fetchData_begin (holding 5)))) as (Hl & Hf & Hfail).
  destruct (Hfail (ErrorObject "Failed to fetch") eq_refl) as [He Hd].
  repeat split; assumption.
Defined.

(** ** The scroll trigger *)

(** C8.  In every state the store can reach, a scroll event sends a
    scroll-load request exactly when the remainder below the viewport
    is under 100, no full-refresh request is in flight, and the store
    holds fewer records than the known total.  The request carries the
    number of records held as its offset and the page size as its
    limit, or 1000 when the page size is unset. *)
Theorem scroll_trigger_fires sy e :
  reachable sy →
  let s := store sy in
  (is_Some (snd (handleScroll e s))
   ↔ scrollHeight e - (scrollTop e + clientHeight e) < 100
     ∧ refreshes sy = []
     ∧ ∃ t, total (pagination s) = Some t ∧ Z.of_nat (length (data s)) < t)
  ∧ (∀ r, snd (handleScroll e s) = Some r →
          offset r = Z.of_nat (length (data s))
          ∧ limit r = Some (or_default (pageSize (pagination s)) 1000)
          ∧ (∀ p, pageSize (pagination s) = Some p → p ≠ 0 → limit r = Some p)
          ∧ (pageSize (pagination s) = None → limit r = Some 1000)).
Proof.
  intros Hre s. destruct (reachable_coherent sy Hre) as [Hsame Hlen].
  fold s in Hsame, Hlen. rewrite <- Hsame in Hlen.
  assert (negb (loading s) = true ↔ refreshes sy = []) as Hidle.
  { destruct (loading s), (refreshes sy); simpl in *; split; try done. }
  assert ((Z.of_nat (length (data s)) <? or_default (total (pagination s)) 0) = true
          ↔ ∃ t, total (pagination s) = Some t ∧ Z.of_nat (length (data s)) < t)
    as Htotal.
  { rewrite Z.ltb_lt. unfold or_default.
    destruct (total (pagination s)) as [t |].
    - destruct (Z.eqb_spec t 0); split.
      + lia.
      + intros (t' & [= <-] & ?). lia.
      + eauto.
      + by intros (t' & [= <-] & ?).
    - split; [lia | by intros (? & ? & ?)]. }
  unfold handleScroll. split.
  - destruct (_ && _) eqn:Hcond.
    + apply andb_prop in Hcond as [Hcond Hc]. apply andb_prop in Hcond as [Ha Hb].
      apply Z.ltb_lt in Ha. apply Hidle in Hb. apply Htotal in Hc.
      destruct (handleScrollLoad_begin _ _ s). simpl. split; [auto | eauto].
    + simpl. split; [by intros [? ?] |].
      intros (Ha & Hb & Hc).
      apply Z.ltb_lt in Ha. apply Hidle in Hb. apply Htotal in Hc.
      fold s in Hcond. rewrite Ha, Hb, Hc in Hcond. discriminate.
  - intros r. destruct (_ && _); [| discriminate].
    unfold handleScrollLoad_begin. simpl. intros [= <-]. simpl.
    repeat split.
    + intros p -> Hp. simpl. by destruct (Z.eqb_spec p 0).
    + by intros ->.
Qed.

Lemma scroll_trigger_fires_witness :
  ∃ r, snd (handleScroll (mkScroll 950 1500 500)
              (set_total (Some 5000) (holding 1000))) = Some r
       ∧ offset r = 1000 ∧ limit r = Some 1000.
Proof.
  set (o := page 0 1000 5000).
  set (sy := mkSystem (fetchData_resolve o (fst (fetchData_begin dataStore)))
                      [] [] []).
  assert (reachable sy) as Hre.
  { apply (reachable_run [CallFetchData; RefreshSettles 0 o] initial);
      [constructor | reflexivity]. }
  destruct (scroll_trigger_fires sy (mkScroll 950 1500 500) Hre)
    as [[_ Hfire] Hreq].
  destruct Hfire as [r Hr].
  - split; [reflexivity |]. split; [reflexivity |].
    exists 5000. split; [reflexivity |]. vm_compute. reflexivity.
  - exists r. split; [exact Hr |].
    destruct (Hreq r Hr) as (Ho & _ & Hp & _).
    split; [rewrite Ho; vm_compute; reflexivity |].
    apply (Hp 1000); [reflexivity | discriminate].
Defined.

(** ** Debounced setters *)

Section DebounceFacts.
Context {A S : Type}.
Variable handler : A → S → S.
Variable wait : Z.
Implicit Types (d : Debounced A S) (calls : list (Z * A)).

Lemma elapse_early now due a d :
  timer d = Some (due, a) → now < due → elapse handler now d = d.
Proof.
  intros Ht Hearly. unfold elapse. rewrite Ht.
  destruct (Z.leb_spec due now); [lia | done].
Qed.

Lemma elapse_due now due a d :
  timer d = Some (due, a) → due ≤ now →
  elapse handler now d
  = mkDebounced (handler a (target d)) None (invocations d ++ [a]).
Proof.
  intros Ht Hdue. unfold elapse. rewrite Ht.
  destruct (Z.leb_spec due now); [done | lia].
Qed.

(** A call that arrives while a timer is pending replaces it. *)
Lemma invoke_supersedes now due a a' d :
  timer d = Some (due, a) → now < due →
  invoke handler wait now a' d
  = mkDebounced (target d) (Some (now + wait, a')) (invocations d).
Proof.
  intros Ht Hearly. unfold invoke.
  by rewrite (elapse_early now due a d).
Qed.

(** Through a burst the handler never runs; the timer ends up with
    the arguments of the last call. *)
Lemma invoke_all_burst calls : ∀ t a d,
  timer d = Some (t + wait, a) →
  burst wait t calls →
  let final := default (t, a) (last calls) in
  invoke_all handler wait calls d
  = mkDebounced (target d) (Some (final.1 + wait, final.2)) (invocations d).
Proof.
  induction calls as [| [t' a'] calls IH]; intros t a d Ht Hburst.
  - simpl. destruct d. simpl in *. by rewrite Ht.
  - destruct Hburst as [Hgap Hburst]. simpl invoke_all.
    rewrite (invoke_supersedes t' (t + wait) a a' d) by (done || lia).
    rewrite (IH t' a') by done.
    rewrite last_cons. simpl. by destruct (last calls).
Qed.
End DebounceFacts.

(** C7.  For each of the three debounced setters: after a burst of
    calls, each less than the quiet period of the setter after the one
    before, the handler has not run as long as the quiet period after
    the last call has not passed, and once it has passed the handler
    has run exactly once, on the state as it was before the burst and
    with the arguments of the last call. *)
Theorem debounced_burst_fires_once
    (ch : Channel) (t0 : Z) (a0 : Args ch) (calls : list (Z * Args ch))
    (sy : System) (now : Z) :
  burst (quiet_period ch) t0 calls →
  let final := default (t0, a0) (last calls) in
  let d := invoke_all (fire ch) (quiet_period ch) ((t0, a0) :: calls)
             (mkDebounced sy None []) in
  (now < final.1 + quiet_period ch →
   elapse (fire ch) now d = d ∧ target d = sy ∧ invocations d = [])
  ∧ (final.1 + quiet_period ch ≤ now →
     elapse (fire ch) now d
     = mkDebounced (fire ch final.2 sy) None [final.2]).
Proof.
  intros Hburst final d.
  assert (d = mkDebounced sy (Some (final.1 + quiet_period ch, final.2)) [])
    as Hd.
  { subst d final. simpl invoke_all.
    by rewrite (invoke_all_burst (fire ch) (quiet_period ch) calls t0 a0). }
  split.
  - intros Hearly. rewrite Hd. split; [| done].
    by apply (elapse_early _ _ (final.1 + quiet_period ch) final.2).
  - intros Hdue. rewrite Hd.
    by rewrite (elapse_due _ _ (final.1 + quiet_period ch) final.2).
Qed.

Lemma debounced_burst_fires_once_witness :
  elapse (fire Search) 1050
    (invoke_all (fire Search) (quiet_period Search)
       [(0, "a"); (100, "ab"); (550, "abc")]
       (mkDebounced initial None []))
  = mkDebounced (fire Search "abc" initial) None ["abc"].
Proof.
  apply (debounced_burst_fires_once Search 0 "a"
           [(100, "ab"); (550, "abc")] initial 1050).
  - simpl. lia.
  - simpl. lia.
Defined.

(** ** Setters and the page *)

Lemma setFilters_handler_resets f s :
  current (pagination (fst (setFilters_handler f s))) = Some 1
  ∧ filters (fst (setFilters_handler f s)) = f
  ∧ ∀ r, snd (setFilters_handler f s) = Some r → offset r = 0.
Proof.
  unfold setFilters_handler, fetchData_begin.
  destruct (isFetching _); simpl; repeat split; try done.
  intros r [= <-]. unfold fetchData_request, fetch_offset. simpl. lia.
Qed.

Lemma setGlobalSearch_handler_resets q s :
  current (pagination (fst (setGlobalSearch_handler q s))) = Some 1
  ∧ globalSearch (fst (setGlobalSearch_handler q s)) = q
  ∧ ∀ r, snd (setGlobalSearch_handler q s) = Some r → offset r = 0.
Proof.
  unfold setGlobalSearch_handler, fetchData_begin.
  destruct (isFetching _); simpl; repeat split; try done.
  intros r [= <-]. unfold fetchData_request, fetch_offset. simpl. lia.
Qed.

(** C1.  The sorts setter does not do what the filters and the search
    setters do: it leaves the pagination as it is.  On page 3 of pages
    of 1000, a change of sorts sends its request with offset 2000,
    where a change of filters or of the search string sends offset 0. *)
Theorem setSorts_keeps_offset :
  (∀ so s, pagination (fst (setSorts_handler so s)) = pagination s
           ∧ sorts (fst (setSorts_handler so s)) = so)
  ∧ let s := set_pagination (mkPagination (Some 3) (Some 1000) (Some 5000))
               dataStore in
    let so := [SortCondition.mk "name" "asc" 1] in
    current (pagination (fst (setSorts_handler so s))) = Some 3
    ∧ offset <$> snd (setSorts_handler so s) = Some 2000
    ∧ offset <$> snd (setFilters_handler [] s) = Some 0
    ∧ offset <$> snd (setGlobalSearch_handler "a" s) = Some 0.
Proof.
  split.
  - intros so s. unfold setSorts_handler, fetchData_begin.
    by destruct (isFetching _).
  - repeat split.
Qed.

(** ** Two scroll-loads in flight

    The scroll channel has no guard.  From the initial store, after two
    pages are loaded, two scroll events in a row send two requests for
    the same offset; when both have settled the store holds 4000
    records. *)
Example overlapping_scroll_loads :
  let near := mkScroll 950 1500 500 in
  ∃ sy,
    run [CallFetchData; RefreshSettles 0 (page 0 1000 5000);
         Scroll near; ScrollLoadSettles 0 (page 1000 1000 5000);
         Scroll near; Scroll near;
         ScrollLoadSettles 0 (page 2000 1000 5000);
         ScrollLoadSettles 0 (page 2000 1000 5000)] initial = Some sy
    ∧ reachable sy
    ∧ length (data (store sy)) = 4000%nat
    ∧ scrollLoads sy = [].
Proof.
  intros near.
  destruct (run [CallFetchData; RefreshSettles 0 (page 0 1000 5000);
                 Scroll near; ScrollLoadSettles 0 (page 1000 1000 5000);
                 Scroll near; Scroll near;
                 ScrollLoadSettles 0 (page 2000 1000 5000);
                 ScrollLoadSettles 0 (page 2000 1000 5000)] initial)
    as [sy |] eqn:Hrun; [| vm_compute in Hrun; discriminate].
  exists sy. split; [reflexivity |].
  split; [by apply (reachable_run _ initial _ reachable_initial Hrun) |].
  vm_compute in Hrun. injection Hrun as <-.
  split; vm_compute; reflexivity.
Qed.

(** ** The change handler: what it passes to the store *)

Lemma sort_condition_Some priority sort sc :
  sort_condition priority sort = Some sc →
  SortCondition.priority sc = priority
  ∧ field sort = Some (SortCondition.column sc)
  ∧ SortCondition.column sc ≠ ""
  ∧ ∃ o, order sort = Some o ∧ SortCondition.direction sc = direction_of o.
Proof.
  unfold sort_condition.
  destruct (field sort) as [f |]; [| done].
  destruct (order sort) as [o |]; [| done].
  destruct (String.eqb_spec f ""); [done |].
  intros [= <-]. simpl. repeat split; eauto.
Qed.

Lemma forEach_sorter_push sorter : ∀ index acc,
  forEach_sorter index sorter acc = acc ++ forEach_sorter index sorter [].
Proof.
  induction sorter as [| sort rest IH]; intros index acc; simpl.
  - by rewrite app_nil_r.
  - rewrite (IH _ (push acc _)), (IH _ (push [] _)).
    unfold push. by rewrite app_nil_l, app_assoc.
Qed.

Lemma forEach_sorter_cons index sort rest :
  forEach_sorter index (sort :: rest) []
  = option_list (sort_condition (Z.of_nat index + 1) sort)
    ++ forEach_sorter (S index) rest [].
Proof. simpl. by rewrite forEach_sorter_push. Qed.

Lemma elem_of_forEach_sorter sorter : ∀ index sc,
  sc ∈ forEach_sorter index sorter []
  ↔ ∃ k sort, sorter !! k = Some sort
            ∧ sort_condition (Z.of_nat (index + k) + 1) sort = Some sc.
Proof.
  induction sorter as [| sort rest IH]; intros index sc.
  - simpl. split; [by intros ?%elem_of_nil | by intros (? & ? & ? & _)].
  - rewrite forEach_sorter_cons, elem_of_app, IH. split.
    + intros [Hhere | (k & sort' & Hk & Hsc)].
      * exists 0%nat, sort. split; [done |].
        rewrite Nat.add_0_r.
        destruct (sort_condition _ sort); simpl in Hhere;
          [by apply list_elem_of_singleton in Hhere as -> | by apply elem_of_nil in Hhere].
      * exists (S k), sort'. split; [done |].
        by replace (index + S k)%nat with (S index + k)%nat by lia.
    + intros ([| k] & sort' & Hk & Hsc).
      * left. simpl in Hk. injection Hk as <-.
        rewrite Nat.add_0_r in Hsc. rewrite Hsc. simpl.
        by apply list_elem_of_singleton.
      * right. exists k, sort'. split; [done |].
        by replace (S index + k)%nat with (index + S k)%nat by lia.
Qed.

Lemma forEach_sorter_sorted sorter : ∀ index,
  StronglySorted (λ a b, SortCondition.priority a < SortCondition.priority b)
    (forEach_sorter index sorter []).
Proof.
  induction sorter as [| sort rest IH]; intros index.
  - constructor.
  - rewrite forEach_sorter_cons. apply StronglySorted_app. split; [| split].
    + intros a b Ha Hb.
      apply elem_of_forEach_sorter in Hb as (k & sort' & _ & Hb).
      apply sort_condition_Some in Hb as [-> _].
      destruct (sort_condition _ sort) as [sc |] eqn:Hsc; simpl in Ha;
        [| by apply elem_of_nil in Ha].
      apply list_elem_of_singleton in Ha as ->.
      apply sort_condition_Some in Hsc as [-> _]. lia.
    + destruct (sort_condition _ sort); simpl; repeat constructor.
    + apply IH.
Qed.

Lemma length_forEach_sorter sorter : ∀ index,
  (length (forEach_sorter index sorter []) ≤ length sorter)%nat.
Proof.
  induction sorter as [| sort rest IH]; intros index; [done |].
  rewrite forEach_sorter_cons, length_app. specialize (IH (S index)).
  destruct (sort_condition _ sort); simpl; lia.
Qed.

(** X1.  The sort conditions that the change handler builds: an entry
    of the sorter array gives a condition exactly when it has a
    non-empty field and an order, and the priority of the condition is
    the position of the entry in the array, counted from 1.  So the
    priorities are strictly increasing (with gaps where entries were
    skipped), every column is non-empty and every direction is "asc"
    or "desc". *)
Theorem newSorts_conditions sorter :
  StronglySorted (λ a b, SortCondition.priority a < SortCondition.priority b)
    (newSorts sorter)
  ∧ (∀ sc, sc ∈ newSorts sorter →
           1 ≤ SortCondition.priority sc
           ∧ SortCondition.column sc ≠ ""
           ∧ (SortCondition.direction sc = "asc"
              ∨ SortCondition.direction sc = "desc"))
  ∧ match sorter with
    | ManySorters sorts =>
        (length (newSorts sorter) ≤ length sorts)%nat
        ∧ ∀ sc, sc ∈ newSorts sorter
                ↔ ∃ k sort, sorts !! k = Some sort
                          ∧ sort_condition (Z.of_nat k + 1) sort = Some sc
    | OneSorter sort =>
        newSorts sorter = option_list (sort_condition 1 sort)
    end.
Proof.
  assert (∀ p sort sc, 1 ≤ p → sort_condition p sort = Some sc →
            1 ≤ SortCondition.priority sc
            ∧ SortCondition.column sc ≠ ""
            ∧ (SortCondition.direction sc = "asc"
               ∨ SortCondition.direction sc = "desc")) as Hwf.
  { intros p sort sc Hp (-> & _ & Hcol & o & _ & ->)%sort_condition_Some.
    split; [done |]. split; [done |]. destruct o; auto. }
  destruct sorter as [sort | sorts]; simpl.
  - unfold push. rewrite app_nil_l. split; [| split; [| done]].
    + destruct (sort_condition 1 sort); simpl; repeat constructor.
    + intros sc Hsc. destruct (sort_condition 1 sort) as [sc' |] eqn:Heq;
        simpl in Hsc; [| by apply elem_of_nil in Hsc].
      apply list_elem_of_singleton in Hsc as ->. by apply (Hwf 1 sort).
  - split; [apply forEach_sorter_sorted |]. split; [| split].
    + intros sc (k & sort & _ & Hsc)%elem_of_forEach_sorter.
      apply (Hwf (Z.of_nat (0 + k) + 1) sort); [lia | done].
    + apply length_forEach_sorter.
    + intros sc. by rewrite elem_of_forEach_sorter.
Qed.

Lemma newSorts_conditions_witness :
  let sorter := ManySorters [mkSorter (Some "name") (Some ascend);
                             mkSorter (Some "id") None;
                             mkSorter (Some "count") (Some descend)] in
  newSorts sorter = [SortCondition.mk "name" "asc" 1;
                     SortCondition.mk "count" "desc" 3]
  ∧ SortCondition.mk "count" "desc" 3 ∈ newSorts sorter.
Proof.
  intros sorter. split; [reflexivity |].
  destruct (newSorts_conditions sorter) as (_ & _ & _ & Hmem).
  apply Hmem. exists 2%nat, (mkSorter (Some "count") (Some descend)).
  split; reflexivity.
Defined.

Lemma forOf_filters_push entries : ∀ acc,
  forOf_filters entries acc = acc ++ forOf_filters entries [].
Proof.
  induction entries as [| [column value] rest IH]; intros acc; simpl.
  - by rewrite app_nil_r.
  - rewrite (IH (push acc _)), (IH (push [] _)).
    unfold push. by rewrite app_nil_l, app_assoc.
Qed.

Lemma newFilters_cons column value rest :
  newFilters ((column, value) :: rest)
  = match value with
    | Some keys => [FilterCondition.mk column "in" (JsKeys keys)]
    | None => []
    end ++ newFilters rest.
Proof.
  unfold newFilters. simpl. rewrite forOf_filters_push.
  by destruct value.
Qed.

(** X2.  The filter conditions that the change handler builds: one
    condition per column whose value is not [null], in the order of
    the entries, with operator "in" and the selected keys as its
    value.  A column whose selection is the empty array still gives a
    condition. *)
Theorem newFilters_conditions entries :
  (∀ fc, fc ∈ newFilters entries
         ↔ ∃ column keys, (column, Some keys) ∈ entries
                        ∧ fc = FilterCondition.mk column "in" (JsKeys keys))
  ∧ FilterCondition.column <$> newFilters entries
    = omap (λ e, match e.2 with Some _ => Some e.1 | None => None end) entries
  ∧ (length (newFilters entries) ≤ length entries)%nat
  ∧ (∀ column, (column, Some []) ∈ entries →
               FilterCondition.mk column "in" (JsKeys []) ∈ newFilters entries).
Proof.
  assert (∀ fc, fc ∈ newFilters entries
         ↔ ∃ column keys, (column, Some keys) ∈ entries
                        ∧ fc = FilterCondition.mk column "in" (JsKeys keys))
    as Hmem.
  { induction entries as [| [column value] rest IH]; intros fc.
    - split; [by intros ?%elem_of_nil |].
      by intros (? & ? & ?%elem_of_nil & _).
    - rewrite newFilters_cons, elem_of_app, IH. split.
      + intros [Hhere | (c & ks & Hin & ->)].
        * destruct value as [keys |]; [| by apply elem_of_nil in Hhere].
          apply list_elem_of_singleton in Hhere as ->.
          exists column, keys. split; [left | done].
        * exists c, ks. split; [by right | done].
      + intros (c & ks & Hin & ->).
        apply elem_of_cons in Hin as [[= -> <-] | Hin].
        * left. by apply list_elem_of_singleton.
        * right. eauto. }
  split; [exact Hmem |]. split; [| split].
  - clear Hmem. induction entries as [| [column value] rest IH]; [done |].
    rewrite newFilters_cons, fmap_app, IH. by destruct value.
  - clear Hmem. induction entries as [| [column value] rest IH]; [done |].
    rewrite newFilters_cons, length_app. destruct value; simpl; lia.
  - intros column Hin. apply Hmem. eauto.
Qed.

Lemma newFilters_conditions_witness :
  let entries := [("name", Some [KeyStr "a"]); ("country", None);
                  ("version", Some [])] in
  FilterCondition.column <$> newFilters entries = ["name"; "version"]
  ∧ FilterCondition.mk "version" "in" (JsKeys []) ∈ newFilters entries.
Proof.
  intros entries.
  destruct (newFilters_conditions entries) as (_ & Hcolumns & _ & Hempty).
  split; [by rewrite Hcolumns |].
  apply Hempty. do 2 right. left.
Defined.

(** ** What the methods leave alone *)

(** Unfold one event of the system down to the field assignments. *)
Ltac unfold_step :=
  unfold after_refresh_call, setPagination, setFilters_handler,
    setSorts_handler, setGlobalSearch_handler, fetchData_begin,
    fetchData_resolve, handleScroll, handleScrollLoad_begin,
    handleScrollLoad_resolve in *.

Lemma step_maxRecords sy ev sy' :
  step sy ev = Some sy' → maxRecords (store sy') = maxRecords (store sy).
Proof.
  intros Hstep. destruct ev; simpl in Hstep; unfold_step;
    repeat case_match; by simplify_eq/=.
Qed.

Lemma step_quiet sy ev sy' :
  (loading (store sy) = true → error (store sy) = None) →
  step sy ev = Some sy' →
  loading (store sy') = true → error (store sy') = None.
Proof.
  intros Hinv Hstep. destruct ev; simpl in Hstep; unfold_step;
    repeat case_match; simplify_eq/=; auto; try done.
Qed.

Lemma reachable_quiet sy :
  reachable sy → loading (store sy) = true → error (store sy) = None.
Proof.
  induction 1 as [| sy ev sy' _ IH Hstep]; [done |].
  by apply (step_quiet sy ev).
Qed.

Lemma reachable_busy sy :
  reachable sy → refreshes sy ≠ [] →
  isFetching (store sy) = true ∧ loading (store sy) = true.
Proof.
  intros [Hsame Hlen]%reachable_coherent Hflight.
  destruct (isFetching (store sy)); [done |].
  by destruct (refreshes sy).
Qed.

Lemma reachable_idle sy :
  reachable sy → refreshes sy = [] →
  isFetching (store sy) = false ∧ loading (store sy) = false.
Proof.
  intros [Hsame Hlen]%reachable_coherent Hnone.
  rewrite Hnone in Hlen.
  by destruct (isFetching (store sy)).
Qed.

(** X3.  No event changes [maxRecords]: in every state the store can
    reach it is 3000, whatever page size the pagination holds. *)
Theorem maxRecords_is_constant sy :
  reachable sy → maxRecords (store sy) = 3000.
Proof.
  induction 1 as [| sy ev sy' _ IH Hstep]; [done |].
  by rewrite (step_maxRecords sy ev sy').
Qed.

Lemma maxRecords_is_constant_witness :
  ∃ sy, run [CallSetPagination (mkPagination (Some 2) (Some 5000) (Some 9000));
             RefreshSettles 0 (page 5000 5 9000)] initial = Some sy
      ∧ pageSize (pagination (store sy)) = Some 5000
      ∧ maxRecords (store sy) = 3000.
Proof.
  eexists. split; [reflexivity |]. split; [reflexivity |].
  apply maxRecords_is_constant.
  apply (reachable_run
           [CallSetPagination (mkPagination (Some 2) (Some 5000) (Some 9000));
            RefreshSettles 0 (page 5000 5 9000)] initial);
    [constructor | reflexivity].
Defined.

(** X4.  In every state the store can reach, a store that shows
    [loading] shows no error: the error of an earlier refresh is
    cleared when the next one starts, and nothing sets it while the
    request is in flight. *)
Theorem loading_store_shows_no_error sy :
  reachable sy → loading (store sy) = true → error (store sy) = None.
Proof. apply reachable_quiet. Qed.

Lemma loading_store_shows_no_error_witness :
  ∃ sy, run [CallFetchData;
             RefreshSettles 0 (FetchResponds false 500 (JsonThrows NonError));
             Scroll (mkScroll 0 0 0);
             CallFetchData] initial = Some sy
      ∧ loading (store sy) = true
      ∧ error (store sy) = None.
Proof.
  eexists. split; [reflexivity |]. split; [reflexivity |].
  apply loading_store_shows_no_error; [| reflexivity].
  apply (reachable_run
           [CallFetchData;
            RefreshSettles 0 (FetchResponds false 500 (JsonThrows NonError));
            Scroll (mkScroll 0 0 0);
            CallFetchData] initial);
    [constructor | reflexivity].
Defined.

(** X5.  In every state the store can reach, when a full-refresh
    request settles the error field tells how it ended: no error after
    a success, the message of the failure otherwise. *)
Theorem settled_refresh_decides_error sy k o sy' :
  reachable sy →
  step sy (RefreshSettles k o) = Some sy' →
  error (store sy')
  = match settle o with
    | inl e => Some (error_text e)
    | inr _ => None
    end.
Proof.
  intros Hre Hstep. simpl in Hstep.
  destruct (refreshes sy !! k) eqn:Hk; [| discriminate].
  injection Hstep as <-. simpl.
  assert (refreshes sy ≠ []) as Hflight by (by intros Heq; rewrite Heq in Hk).
  destruct (reachable_busy sy Hre Hflight) as [_ Hload].
  pose proof (reachable_quiet sy Hre Hload) as Hquiet.
  unfold fetchData_resolve. by destruct (settle o).
Qed.

Lemma settled_refresh_decides_error_witness :
  let sy := default initial
              (run [CallFetchData; RefreshSettles 0 (FetchRejects NonError);
                    CallFetchData] initial) in
  let sy' := default initial (step sy (RefreshSettles 0 (page 0 10 10))) in
  error (store sy') = None ∧ data (store sy') = items 0 10.
Proof.
  intros sy sy'. split; [| reflexivity].
  assert (reachable sy) as Hre.
  { apply (reachable_run
             [CallFetchData; RefreshSettles 0 (FetchRejects NonError);
              CallFetchData] initial);
      [constructor | reflexivity]. }
  exact (settled_refresh_decides_error sy 0 (page 0 10 10) sy' Hre eq_refl).
Defined.

(** X6.  Failures of the two kinds of request go to different places.
    An event changes the error field only by starting a full refresh
    (which clears it) or by a full-refresh request failing (which sets
    the message); it adds to the console only when a scroll-load
    request fails.  Scroll events and scroll-load requests never touch
    the error field. *)
Theorem error_and_console_channels sy ev sy' :
  step sy ev = Some sy' →
  (error (store sy') = error (store sy)
   ∨ (error (store sy') = None ∧ ∃ r, refreshes sy' = refreshes sy ++ [r])
   ∨ (∃ k o e, ev = RefreshSettles k o ∧ settle o = inl e
             ∧ error (store sy') = Some (error_text e)))
  ∧ (console sy' = console sy
     ∨ (∃ k o e, ev = ScrollLoadSettles k o ∧ settle o = inl e
               ∧ console sy' = console sy ++ [e])).
Proof.
  intros Hstep. destruct ev; simpl in Hstep; unfold_step;
    repeat case_match; simplify_eq/=; rewrite ?app_nil_r; split;
    first
      [ by left
      | right; left; split; [done | by eexists]
      | right; right; do 3 eexists; split; [done | by split]
      | right; do 3 eexists; split; [done | by split] ].
Qed.

Lemma error_and_console_channels_witness :
  ∃ sy',
    step (mkSystem (holding 10) [] [fetchData_request (holding 10)] [])
         (ScrollLoadSettles 0 (FetchRejects (ErrorObject "Failed to fetch")))
    = Some sy'
    ∧ error (store sy') = None
    ∧ console sy' = [ErrorObject "Failed to fetch"].
Proof.
  eexists. split; [reflexivity |].
  destruct (error_and_console_channels
              (mkSystem (holding 10) [] [fetchData_request (holding 10)] [])
              (ScrollLoadSettles 0 (FetchRejects (ErrorObject "Failed to fetch")))
              _ eq_refl) as [_ Hconsole].
  split; [reflexivity |].
  destruct Hconsole as [Hsame | (k & o & e & [= <- <-] & [= <-] & Hlog)];
    [discriminate Hsame | exact Hlog].
Defined.

(** ** Changes of the query while a refresh is in flight *)

Lemma fetchData_resolve_query o s :
  let s' := fetchData_resolve o s in
  filters s' = filters s ∧ sorts s' = sorts s
  ∧ globalSearch s' = globalSearch s
  ∧ current (pagination s') = current (pagination s)
  ∧ pageSize (pagination s') = pageSize (pagination s).
Proof. unfold fetchData_resolve. by destruct (settle o). Qed.

(** X7.  In every state the store can reach, while a full-refresh
    request is in flight the setters still assign their fields (and
    the page, for filters and search), but the [fetchData] they call is
    dropped: no request is sent for the new query.  When the request
    in flight settles, nothing is in flight any more, the query fields
    are the new ones, and on success the records are those of the
    response to the old request. *)
Theorem mutation_during_refresh_is_not_queried sy :
  reachable sy → refreshes sy ≠ [] →
  (∀ p, step sy (CallSetPagination p)
        = Some (with_store (set_pagination p (store sy)) sy))
  ∧ (∀ f, step sy (FireSetFilters f)
          = Some (with_store
                    (set_current (Some 1) (set_filters f (store sy))) sy))
  ∧ (∀ so, step sy (FireSetSorts so)
           = Some (with_store (set_sorts so (store sy)) sy))
  ∧ (∀ q, step sy (FireSetGlobalSearch q)
          = Some (with_store
                    (set_current (Some 1) (set_globalSearch q (store sy))) sy))
  ∧ (∀ s1 o, ∃ sy2,
        step (with_store s1 sy) (RefreshSettles 0 o) = Some sy2
        ∧ refreshes sy2 = []
        ∧ filters (store sy2) = filters s1
        ∧ sorts (store sy2) = sorts s1
        ∧ globalSearch (store sy2) = globalSearch s1
        ∧ current (pagination (store sy2)) = current (pagination s1)
        ∧ pageSize (pagination (store sy2)) = pageSize (pagination s1)
        ∧ (∀ r, settle o = inr r → data (store sy2) = result_data r)).
Proof.
  intros Hre Hflight.
  destruct (reachable_busy sy Hre Hflight) as [Hbusy _].
  destruct (reachable_coherent sy Hre) as [_ Hlen]. rewrite Hbusy in Hlen.
  assert (∀ s1, isFetching s1 = true →
            after_refresh_call sy (fetchData_begin s1) = with_store s1 sy)
    as Hdrop.
  { intros s1 Hs1. rewrite (fetchData_begin_busy s1 Hs1).
    unfold after_refresh_call, with_store. simpl. by rewrite app_nil_r. }
  split; [| split; [| split; [| split]]];
    try (intros; cbn [step];
         unfold setPagination, setFilters_handler, setSorts_handler,
           setGlobalSearch_handler;
         by rewrite Hdrop by exact Hbusy).
  intros s1 o.
  destruct (refreshes sy) as [| r0 [| ? ?]] eqn:Hrs; try discriminate.
  eexists. simpl. rewrite Hrs. simpl. split; [reflexivity |]. simpl.
  destruct (fetchData_resolve_query o s1) as (? & ? & ? & ? & ?).
  repeat split; try done.
  intros r Hok. unfold fetchData_resolve. by rewrite Hok.
Qed.

Lemma mutation_during_refresh_is_not_queried_witness :
  let sy := default initial (run [CallFetchData] initial) in
  let f := [FilterCondition.mk "name" "in" (JsKeys [KeyStr "a"])] in
  ∃ sy1 sy2,
    step sy (FireSetFilters f) = Some sy1
    ∧ length (refreshes sy1) = 1%nat
    ∧ req_filters <$> refreshes sy1 = [[]]
    ∧ step sy1 (RefreshSettles 0 (page 0 10 10)) = Some sy2
    ∧ refreshes sy2 = []
    ∧ filters (store sy2) = f
    ∧ data (store sy2) = items 0 10.
Proof.
  intros sy f.
  assert (reachable sy) as Hre
    by (apply (reachable_run [CallFetchData] initial);
        [constructor | reflexivity]).
  assert (refreshes sy ≠ []) as Hflight by discriminate.
  destruct (mutation_during_refresh_is_not_queried sy Hre Hflight)
    as (_ & Hf & _ & _ & Hsettle).
  destruct (Hsettle (set_current (Some 1) (set_filters f (store sy)))
              (page 0 10 10))
    as (sy2 & Hstep & Hnone & Hfilters & _ & _ & _ & _ & Hdata).
  exists (with_store (set_current (Some 1) (set_filters f (store sy))) sy), sy2.
  split; [apply Hf |]. split; [reflexivity |]. split; [reflexivity |].
  split; [exact Hstep |]. split; [exact Hnone |].
  split; [exact Hfilters |]. by apply (Hdata (mkResult (items 0 10) 10)).
Defined.

(** ** Scroll-loads below and at capacity *)

(** X8.  A successful scroll-load on a store that holds fewer than
    [maxRecords] records keeps every record in place and puts the
    records of the response after them, however many they are; it
    takes the total from the response and changes nothing else. *)
Theorem scroll_append_below_capacity offset limit o r s :
  settle o = inr r →
  Z.of_nat (length (data s)) < maxRecords s →
  handleScrollLoad offset limit o s
  = (set_total (Some (result_total r))
       (set_data (data s ++ result_data r) s), None).
Proof.
  intros Hok Hbelow. unfold handleScrollLoad.
  rewrite handleScrollLoad_begin_below by done.
  unfold handleScrollLoad_resolve. by rewrite Hok.
Qed.

Lemma scroll_append_below_capacity_witness :
  data (fst (handleScrollLoad 2999 1000 (page 2999 1000 9000) (holding 2999)))
  = items 0 2999 ++ items 2999 1000.
Proof.
  rewrite (scroll_append_below_capacity 2999 1000 (page 2999 1000 9000)
             (mkResult (items 2999 1000) 9000) (holding 2999) eq_refl).
  - reflexivity.
  - vm_compute. reflexivity.
Defined.

Lemma handleScroll_fired e s s1 r :
  handleScroll e s = (s1, Some r) →
  s1 = fst (handleScrollLoad_begin (Z.of_nat (length (data s)))
              (or_default (pageSize (pagination s)) 1000) s)
  ∧ offset r = Z.of_nat (length (data s))
  ∧ limit r = Some (or_default (pageSize (pagination s)) 1000).
Proof.
  unfold handleScroll. destruct (_ && _); [| discriminate].
  unfold handleScrollLoad_begin. by intros [= <- <-].
Qed.

(** X9.  When a scroll event fires on a store that holds exactly
    [maxRecords] records, with a page size below [maxRecords], and its
    request is answered with a full page before anything else happens
    to the store, the request has asked for offset [maxRecords] and
    the store holds exactly [maxRecords] records again, with the same
    page size: it is in the situation it was in before.  A scroll
    event that fires on the store in that state asks for the same
    offset as the one before, since the offset of a scroll-load is the
    number of records held. *)
Theorem full_window_repeats_offset e e' o res s s1 r1 :
  Z.of_nat (length (data s)) = maxRecords s →
  or_default (pageSize (pagination s)) 1000 < maxRecords s →
  handleScroll e s = (s1, Some r1) →
  settle o = inr res →
  Z.of_nat (length (result_data res))
  = or_default (pageSize (pagination s)) 1000 →
  let s2 := fst (handleScrollLoad_resolve o s1) in
  offset r1 = maxRecords s
  ∧ Z.of_nat (length (data s2)) = maxRecords s2
  ∧ maxRecords s2 = maxRecords s
  ∧ pageSize (pagination s2) = pageSize (pagination s)
  ∧ length (data s2) = length (data s)
  ∧ ∀ r2, snd (handleScroll e' s2) = Some r2 → offset r2 = offset r1.
Proof.
  intros Hfull Hlimit Hfire Hok Hpage s2.
  apply handleScroll_fired in Hfire as (-> & Hoff & _).
  assert (length (data s2) = length (data s)
          ∧ maxRecords s2 = maxRecords s
          ∧ pageSize (pagination s2) = pageSize (pagination s))
    as (Hlen & Hmax & Hsize).
  { subst s2. rewrite handleScrollLoad_begin_full by lia.
    unfold handleScrollLoad_resolve. rewrite Hok. simpl.
    rewrite length_app, slice_negative, length_lastn by lia.
    split; [lia | done]. }
  split; [lia |]. split; [lia |]. split; [exact Hmax |].
  split; [exact Hsize |]. split; [exact Hlen |].
  intros r2 Hr2.
  destruct (handleScroll e' s2) as [s3 [r |]] eqn:Hfire2; [| discriminate].
  simpl in Hr2. injection Hr2 as ->.
  apply handleScroll_fired in Hfire2 as (_ & -> & _). lia.
Qed.

Lemma full_window_repeats_offset_witness :
  let s := set_total (Some 9000) (holding 3000) in
  let near := mkScroll 950 1500 500 in
  let s1 := fst (handleScroll near s) in
  let s2 := fst (handleScrollLoad_resolve (page 3000 1000 9000) s1) in
  handleScroll near s = (s1, Some (mkRequest 3000 (Some 1000) [] [] ""))
  ∧ length (data s2) = 3000%nat
  ∧ ∀ r2, snd (handleScroll near s2) = Some r2 → offset r2 = 3000.
Proof.
  intros s near s1 s2.
  assert (handleScroll near s
          = (s1, Some (mkRequest 3000 (Some 1000) [] [] ""))) as Hfire
    by (vm_compute; reflexivity).
  split; [exact Hfire |].
  destruct (full_window_repeats_offset near near (page 3000 1000 9000)
              (mkResult (items 3000 1000) 9000) s s1
              (mkRequest 3000 (Some 1000) [] [] ""))
    as (Hoff & _ & _ & _ & Hlen & Hnext).
  - vm_compute. reflexivity.
  - reflexivity.
  - exact Hfire.
  - reflexivity.
  - vm_compute. reflexivity.
  - split; [fold s2 in Hlen; rewrite Hlen; vm_compute; reflexivity |].
    intros r2 Hr2. by rewrite (Hnext r2 Hr2).
Defined.

(** X10.  Scroll events are not guarded against each other.  On a store
    below capacity, a scroll event that fires leaves the store as it
    is, so the same event fires again before the first request has
    settled: two requests with the same offset are in flight. *)
Theorem scroll_events_are_not_guarded sy e r :
  snd (handleScroll e (store sy)) = Some r →
  Z.of_nat (length (data (store sy))) < maxRecords (store sy) →
  run [Scroll e; Scroll e] sy
  = Some (mkSystem (store sy) (refreshes sy)
                   (scrollLoads sy ++ [r; r]) (console sy)).
Proof.
  intros Hfire Hbelow.
  destruct (handleScroll e (store sy)) as [s1 r'] eqn:Hscroll.
  simpl in Hfire. subst r'.
  destruct (handleScroll_fired _ _ _ _ Hscroll) as (Hs1 & _).
  rewrite handleScrollLoad_begin_below in Hs1 by done. subst s1.
  cbn [run step]. rewrite Hscroll. cbn [fst snd store option_list].
  rewrite Hscroll. cbn [fst snd refreshes scrollLoads console option_list].
  by rewrite <- app_assoc.
Qed.

Lemma scroll_events_are_not_guarded_witness :
  let sy := mkSystem (set_total (Some 5000) (holding 1000)) [] [] [] in
  let r := mkRequest 1000 (Some 1000) [] [] "" in
  run [Scroll (mkScroll 950 1500 500); Scroll (mkScroll 950 1500 500)] sy
  = Some (mkSystem (store sy) [] [r; r] []).
Proof.
  intros sy r.
  apply (scroll_events_are_not_guarded sy (mkScroll 950 1500 500) r).
  - vm_compute. reflexivity.
  - vm_compute. reflexivity.
Defined.

(** ** A change of the table, from the handler to the store *)

(** X11.  The change handler passes the pagination on only when the
    page number differs from the one of the store; a change of page
    size alone does not reach the store.  Whatever the change was, when
    the two debounced calls that the handler always makes have fired
    (sorts, then filters), the store is on page 1 with the sorts and
    the filters that the handler built. *)
Theorem table_change_ends_on_first_page p entries sorter sy :
  let sy1 := (handleTableChange p entries sorter sy).1 in
  (current p = current (pagination (store sy)) → sy1 = sy)
  ∧ (current p ≠ current (pagination (store sy)) →
     pagination (store sy1) = p)
  ∧ ∃ sy2,
      run [FireSetSorts (newSorts sorter); FireSetFilters (newFilters entries)]
          sy1 = Some sy2
      ∧ current (pagination (store sy2)) = Some 1
      ∧ pageSize (pagination (store sy2)) = pageSize (pagination (store sy1))
      ∧ sorts (store sy2) = newSorts sorter
      ∧ filters (store sy2) = newFilters entries.
Proof.
  intros sy1. subst sy1. unfold handleTableChange. cbn [fst].
  split; [| split].
  - intros Hsame. by rewrite bool_decide_eq_false_2 by naive_solver.
  - intros Hdiff. rewrite bool_decide_eq_true_2 by done.
    unfold_step. by case_match.
  - eexists. split; [reflexivity |].
    cbn [store]. unfold_step. by repeat case_match.
Qed.

Lemma table_change_ends_on_first_page_witness :
  let p := mkPagination (Some 1) (Some 50) (Some 0) in
  (handleTableChange p [] (ManySorters []) initial).1 = initial
  ∧ pageSize (pagination (store initial)) = Some 1000.
Proof.
  intros p.
  destruct (table_change_ends_on_first_page p [] (ManySorters []) initial)
    as (Hsame & _ & _).
  split; [by apply Hsame | reflexivity].
Defined.

Lemma sorts_then_filters so f sy1 :
  ∃ sy2,
    run [FireSetSorts so; FireSetFilters f] sy1 = Some sy2
    ∧ filters (store sy2) = f
    ∧ isFetching (store sy2) = true
    ∧ ∀ r, r ∈ refreshes sy2 →
           r ∈ refreshes sy1 ∨ req_filters r = filters (store sy1).
Proof.
  destruct sy1 as [s rs sl co]. cbn [run step store].
  unfold setSorts_handler, setFilters_handler.
  destruct (isFetching s) eqn:Hbusy.
  - rewrite !(fetchData_begin_busy (set_sorts so s)) by exact Hbusy.
    unfold after_refresh_call. cbn [fst snd store refreshes option_list].
    rewrite fetchData_begin_busy by exact Hbusy.
    eexists. split; [reflexivity |]. cbn. rewrite !app_nil_r.
    split; [done |]. split; [done |]. auto.
  - rewrite !(fetchData_begin_idle (set_sorts so s)) by exact Hbusy.
    unfold after_refresh_call. cbn [fst snd store refreshes option_list].
    rewrite fetchData_begin_busy by reflexivity.
    eexists. split; [reflexivity |]. cbn. rewrite !app_nil_r.
    split; [done |]. split; [done |].
    intros r [Hr | ->%list_elem_of_singleton]%elem_of_app; auto.
Qed.

(** X12.  The filters of a table change are not sent.  When the two
    debounced calls of the change handler fire one after the other
    (sorts, then filters), the store ends with the new filters and with
    a full refresh in flight, but every full-refresh request that the
    change has sent carries the filters of before: the request of the
    sorts handler goes out first, and the one of the filters handler is
    then dropped. *)
Theorem table_change_filters_not_sent p entries sorter sy :
  let sy1 := (handleTableChange p entries sorter sy).1 in
  ∃ sy2,
    run [FireSetSorts (newSorts sorter); FireSetFilters (newFilters entries)]
        sy1 = Some sy2
    ∧ filters (store sy2) = newFilters entries
    ∧ isFetching (store sy2) = true
    ∧ ∀ r, r ∈ refreshes sy2 →
           r ∈ refreshes sy ∨ req_filters r = filters (store sy).
Proof.
  intros sy1.
  destruct (sorts_then_filters (newSorts sorter) (newFilters entries) sy1)
    as (sy2 & Hrun & Hf & Hbusy & Hreq).
  exists sy2. split; [exact Hrun |]. split; [exact Hf |].
  split; [exact Hbusy |].
  assert (filters (store sy1) = filters (store sy)
          ∧ ∀ r, r ∈ refreshes sy1 →
                 r ∈ refreshes sy ∨ req_filters r = filters (store sy))
    as [Hsame Hsent].
  { subst sy1. unfold handleTableChange. cbn [fst].
    case_bool_decide; [| auto].
    unfold setPagination, after_refresh_call.
    destruct (isFetching (store sy)) eqn:Hb.
    - rewrite fetchData_begin_busy by exact Hb. cbn. rewrite app_nil_r. auto.
    - rewrite fetchData_begin_idle by exact Hb. cbn. split; [done |].
      intros r [Hr | ->%list_elem_of_singleton]%elem_of_app; auto. }
  intros r [Hr | Hr]%Hreq; [auto | right; congruence].
Qed.

Lemma table_change_filters_not_sent_witness :
  let p := mkPagination (Some 1) (Some 1000) (Some 0) in
  let entries := [("name", Some [KeyStr "a"])] in
  ∃ sy2,
    run [FireSetSorts []; FireSetFilters (newFilters entries)]
        (handleTableChange p entries (ManySorters []) initial).1 = Some sy2
    ∧ filters (store sy2) = [FilterCondition.mk "name" "in" (JsKeys [KeyStr "a"])]
    ∧ req_filters <$> refreshes sy2 = [[]].
Proof.
  intros p entries.
  destruct (table_change_filters_not_sent p entries (ManySorters []) initial)
    as (sy2 & Hrun & Hfilters & _ & _).
  exists sy2. split; [exact Hrun |]. split; [exact Hfilters |].
  vm_compute in Hrun. by injection Hrun as <-.
Defined.

(** ** Requests and the query they carry *)

(** X13.  On a store with no refresh in flight, the filters handler and
    the search handler each send one request for the first page: offset
    0, the page size of the store as limit, the new value in its field
    and the other query fields as they are.  The store goes to page 1,
    shows [loading] and has its error cleared. *)
Theorem filters_and_search_send_first_page s :
  isFetching s = false →
  (∀ f, setFilters_handler f s
        = (set_error None (set_loading true (set_isFetching true
             (set_current (Some 1) (set_filters f s)))),
           Some (mkRequest 0 (pageSize (pagination s)) f (sorts s)
                           (globalSearch s))))
  ∧ (∀ q, setGlobalSearch_handler q s
          = (set_error None (set_loading true (set_isFetching true
               (set_current (Some 1) (set_globalSearch q s)))),
             Some (mkRequest 0 (pageSize (pagination s)) (filters s) (sorts s)
                             q))).
Proof.
  intros Hidle. split; intros x.
  - unfold setFilters_handler. rewrite fetchData_begin_idle by exact Hidle.
    unfold fetchData_request, fetch_offset. simpl. repeat f_equal; lia.
  - unfold setGlobalSearch_handler. rewrite fetchData_begin_idle by exact Hidle.
    unfold fetchData_request, fetch_offset. simpl. repeat f_equal; lia.
Qed.

Lemma filters_and_search_send_first_page_witness :
  let s := set_pagination (mkPagination (Some 3) (Some 1000) (Some 5000))
             dataStore in
  snd (setGlobalSearch_handler "abc" s)
  = Some (mkRequest 0 (Some 1000) [] [] "abc").
Proof.
  intros s.
  destruct (filters_and_search_send_first_page s eq_refl) as [_ Hsearch].
  by rewrite Hsearch.
Defined.

(** X14.  The page size has a default in some places only.  When the
    pagination has no page size, or the page size 0, a full refresh
    computes its offset with pages of 1000 but sends the page size as
    it is for the limit (absent, or 0), while a scroll event on the
    same store asks for 1000 records. *)
Theorem refresh_limit_has_no_default s :
  isFetching s = false →
  pageSize (pagination s) = None ∨ pageSize (pagination s) = Some 0 →
  ∃ r, snd (fetchData_begin s) = Some r
     ∧ limit r = pageSize (pagination s)
     ∧ offset r = (or_default (current (pagination s)) 1 - 1) * 1000
     ∧ ∀ e s1 r2, handleScroll e s = (s1, Some r2) → limit r2 = Some 1000.
Proof.
  intros Hidle Hsize. rewrite fetchData_begin_idle by exact Hidle.
  eexists. split; [reflexivity |]. split; [reflexivity |]. split.
  - unfold fetchData_request, fetch_offset. simpl.
    by destruct Hsize as [-> | ->].
  - intros e s1 r2 (_ & _ & ->)%handleScroll_fired.
    by destruct Hsize as [-> | ->].
Qed.

Lemma refresh_limit_has_no_default_witness :
  let s := set_pagination (mkPagination (Some 3) None (Some 5000))
             (holding 10) in
  (∃ r, snd (fetchData_begin s) = Some r
        ∧ limit r = None ∧ offset r = 2000)
  ∧ limit <$> snd (handleScroll (mkScroll 0 0 0) s) = Some (Some 1000).
Proof.
  intros s.
  destruct (refresh_limit_has_no_default s eq_refl (or_introl eq_refl))
    as (r & Hr & Hlimit & Hoffset & _).
  split; [| reflexivity].
  exists r. split; [exact Hr |]. split; [exact Hlimit | exact Hoffset].
Defined.

(** X15.  A scroll-load request that is in flight when the query
    changes is still appended.  With no refresh in flight and a
    scroll-load in flight, a change of the search string sends a
    refresh; when the refresh and then the scroll-load succeed, the
    store holds the records for the new search followed by the records
    that the scroll-load, sent for the old search, brought. *)
Theorem stale_scroll_load_is_appended sy k q o1 res1 o2 res2 :
  isFetching (store sy) = false →
  refreshes sy = [] →
  is_Some (scrollLoads sy !! k) →
  settle o1 = inr res1 →
  settle o2 = inr res2 →
  ∃ sy',
    run [FireSetGlobalSearch q; RefreshSettles 0 o1; ScrollLoadSettles k o2] sy
    = Some sy'
    ∧ globalSearch (store sy') = q
    ∧ data (store sy') = result_data res1 ++ result_data res2
    ∧ total (pagination (store sy')) = Some (result_total res2)
    ∧ refreshes sy' = [] ∧ scrollLoads sy' = delete k (scrollLoads sy).
Proof.
  intros Hidle Hnone [r0 Hk] Hok1 Hok2.
  destruct sy as [s rs sl co]. simpl in *. subst rs.
  unfold setGlobalSearch_handler.
  rewrite fetchData_begin_idle by exact Hidle.
  unfold after_refresh_call.
  cbn -[fetchData_resolve handleScrollLoad_resolve fetchData_request].
  rewrite Hk.
  eexists. split; [reflexivity |].
  unfold fetchData_resolve, handleScrollLoad_resolve.
  rewrite Hok1, Hok2. by cbn.
Qed.

Lemma stale_scroll_load_is_appended_witness :
  let s := set_total (Some 5000) (holding 1000) in
  let sy := mkSystem s [] [mkRequest 1000 (Some 1000) [] [] ""] [] in
  ∃ sy',
    run [FireSetGlobalSearch "abc"; RefreshSettles 0 (page 7000 2 2);
         ScrollLoadSettles 0 (page 1000 3 5000)] sy = Some sy'
    ∧ data (store sy') = items 7000 2 ++ items 1000 3.
Proof.
  intros s sy.
  destruct (stale_scroll_load_is_appended sy 0 "abc"
              (page 7000 2 2) (mkResult (items 7000 2) 2)
              (page 1000 3 5000) (mkResult (items 1000 3) 5000))
    as (sy' & Hrun & _ & Hdata & _); try reflexivity.
  - by eexists.
  - exists sy'. split; [exact Hrun | exact Hdata].
Defined.

(** A call made at capacity can be overtaken.  From the initial store
    three pages are loaded one after the other, so that the store holds
    3000 records.  A scroll event then trims the store to 2000 records
    and asks for offset 3000; a second scroll event, before the answer,
    finds 2000 records and asks for offset 2000.  When both are
    answered the store holds 4000 records. *)
Example scroll_call_at_capacity_overtaken :
  let near := mkScroll 950 1500 500 in
  ∃ sy sy2 sy4,
    run [CallFetchData; RefreshSettles 0 (page 0 1000 9000);
         Scroll near; ScrollLoadSettles 0 (page 1000 1000 9000);
         Scroll near; ScrollLoadSettles 0 (page 2000 1000 9000)] initial
    = Some sy
    ∧ length (data (store sy)) = 3000%nat
    ∧ run [Scroll near; Scroll near] sy = Some sy2
    ∧ length (data (store sy2)) = 2000%nat
    ∧ offset <$> scrollLoads sy2 = [3000; 2000]
    ∧ run [ScrollLoadSettles 0 (page 3000 1000 9000);
           ScrollLoadSettles 0 (page 2000 1000 9000)] sy2 = Some sy4
    ∧ reachable sy4
    ∧ length (data (store sy4)) = 4000%nat.
Proof.
  intros near. eexists. eexists. eexists.
  split; [vm_compute; reflexivity |].
  split; [vm_compute; reflexivity |].
  split; [vm_compute; reflexivity |].
  split; [vm_compute; reflexivity |].
  split; [vm_compute; reflexivity |].
  split; [vm_compute; reflexivity |].
  split; [| vm_compute; reflexivity].
  apply (reachable_run
           [CallFetchData; RefreshSettles 0 (page 0 1000 9000);
            Scroll near; ScrollLoadSettles 0 (page 1000 1000 9000);
            Scroll near; ScrollLoadSettles 0 (page 2000 1000 9000);
            Scroll near; Scroll near;
            ScrollLoadSettles 0 (page 3000 1000 9000);
            ScrollLoadSettles 0 (page 2000 1000 9000)] initial);
    [constructor | vm_compute; reflexivity].
Qed.
